(* ===== verification/_CoqProject ===== *)
-Q . S2P
Prelude.v
Text.v
Http.v
Encoding.v
Codec.v
Drain.v
Decode.v
Middleware.v
Spec.v
Task.v
Pool.v
