(* ===== verification/Prelude.v ===== *)
(** * Verification of surf's response-compression middleware

    The program is [src/src/middleware/compression.rs]: a surf middleware
    that advertises the encodings it can decode and transparently decodes
    a compressed response.  It has two parts that run in sequence around
    the rest of the pipeline:

    - the encoding negotiator: [handle] inserts [Accept-Encoding: gzip, br,
      deflate, zstd] into the request (lines 18, 131-132), and after the
      response returns, [decode] reads [Content-Encoding], splits it on
      commas, trims the tokens, reverses them and parses each with
      [parse_encoding] (lines 37-46, 49-64), panicking on an unknown token;
    - the streaming decode driver: for each encoding of the reversed chain
      [decode] takes the body out, wraps it in the codec's stream decoder,
      drains the decoder chunk by chunk into a vector, puts the vector
      back as the body (lines 66-114), then removes [Content-Encoding]
      and unwraps the removed value (line 116).

    ** Files

    - [Prelude.v] (this file): Rust's [Result] and [collect] into a
      [Result<Vec>], the [outcome] monad that keeps a panic as a value
      ([unwrap], [unwrap_option]), the scope [surf_scope], the hint
      databases [surf] and [surf_rw], the tactic [outcome_inv], and the
      generic lemmas on [collect] and deterministic relations.
    - [Text.v], Module [Str]: [str::split], [str::trim], [char::is_whitespace]
      as used on lines 56-57, and [join], which [split] inverts (used to
      parse a rendered header).
    - [Http.v], Module [Http]: the library types the code only calls:
      [HeaderMap] as a [gmap] from names to their value lists ([get],
      [insert], [remove]), [HeaderValue::to_str] and
      [HeaderValue::from_static] (which panics on a byte that is not
      visible ASCII), [Body] as a finite list of chunk results, [Request],
      [Response].
    - [Encoding.v], Module [Enc]: [Encoding], [parse_encoding],
      [SUPPORTED_ENCODINGS], the chain parser [parse_encodings] and the
      header read [content_encodings] (lines 49-64).
    - [Codec.v], Module [Codec]: the codec libraries as an interface: the
      class [Decoders] (the four decoder constructors, each giving the
      chunks its stream yields on a body) and the contract
      [DecodersCorrect] (an encoder per codec that the decoder inverts on
      any chunking); [tagged_decoders] implements both with one-byte magic
      formats and a streaming state machine, for the witnesses.
    - [Drain.v], Module [Drain]: the drain loop of lines 70-76, as the
      function [drain] and as the small-step machine [step] whose
      [Polling] states are the [.await] suspension points.
    - [Decode.v], Module [Decode]: [decode_with] (one arm of the match),
      [decode_encoding] (the match), [decode_chain] (the for loop) and
      [decode] (the whole method), in a Section over [Decoders].
    - [Middleware.v], Module [Middleware]: [Compression], [Compression_new],
      [new],
      [advertise] (the [from_static] value, then the insert) and [handle],
      with the rest of the pipeline a function [next] from the request it
      receives to its result.
    - [Spec.v], Module [DecodeSpec]: the typed-error contract of spec
      section 7 (not code of the repository): [DecodeError] with
      [InvalidEncodingChain] and [DecodeFailed], and [decode_spec], which
      parses and decodes as the code does but returns the error instead
      of panicking, numbering chain positions in decoding order; and
      [handle_spec], the middleware the spec asks for, which passes a
      response with a bad [Content-Encoding] through with its original
      body and the error beside it.
    - [Task.v], Module [Task]: [decode] as one cooperative task, a small-step
      machine [tstep] (with the executable [tstep_fn]) whose states are
      the loop head, the drain (embedding [Drain.step], so every [.await]
      is a state), the header strip, return, panic, and [Cancelled], the
      task dropped at a suspension point ([suspended]: before [decode]
      starts, or at the [.await] of a decoder's next chunk).
    - [Pool.v], Module [Pool]: the executor of spec section 5 (not code of
      the repository): [sched_step] lets any one task of a pool step, or
      drops a suspended task (the cancellation of spec section 5);
      [run_schedule] runs a given interleaving.

    ** What is proved

    - Functional correctness: with the codec contract, a response whose
      [Content-Encoding] lists a chain in application order and whose body
      is a plaintext encoded by it is decoded to that plaintext, the header
      removed, all else kept ([Decode.decode_correct]); end to end through
      [handle] for every non-empty chain the server labels
      ([Middleware.handle_correct]).
    - Against the typed-error contract of spec section 7 ([Spec.v]): where
      the contract returns a response the code returns the same one; where
      it reports an error the code panics, except for a header value that
      is not visible ASCII, which the code passes through
      ([DecodeSpec.decode_spec_refinement]); a [DecodeFailed] error names
      the encoding at that position of the chain the code parsed, whose
      decoder fails on the body the code's earlier decodings produced
      ([decode_failed_position]); the same contract lifted to [handle]
      ([handle_spec_refinement]).
    - Errors: an unknown token panics before the body is touched, a codec
      error panics ([decode_unknown_token_panics],
      [decode_codec_error_panics]); an empty or blank list element (an
      empty value, ["gzip,"]) is such a token
      ([decode_empty_element_panics]); the [Option::unwrap] of line 116
      never fires ([decode_remove_never_panics]); an absent or non-ASCII
      header leaves the response unchanged; a pipeline error is returned
      as it is.
    - A code bug: only the first [Content-Encoding] field line is read but
      all are removed ([decode_ignores_later_values]).
    - [decode] keeps status and other headers and is idempotent; an
      identity-only chain leaves the body; [advertise] sets exactly the
      capability value.
    - Parser: the chain is the reversed trimmed tokens
      ([Enc.parse_encodings_spec]); failure exactly on a bad token; round
      trip with a rendered header.
    - Drain loop: equal to collect-and-concatenate, panicking at the first
      error ([Drain.drain_collect]).
    - Task and cancellation: every reachable state of the task machine
      holds what the computation of [decode] has produced at that point:
      the response of the decoded prefix of the chain, with the
      [Body::empty()] placeholder while the next decoder is drained
      ([Task.task_inv_reachable]); under any schedule, a task the executor
      drops holds its original response or the placeholder over a decoded
      prefix, never a partly mutated header ([Pool.cancelled_leaves]).

    Not stated, because they hold by construction of the model rather than
    because of the code: termination (every loop runs over a finite list),
    non-interference between tasks (a scheduling step rewrites one task's
    cell from its own value) and progress of the executor (the model never
    waits on the transport).

    ** Bounds and fuel

    No fuel is needed: every loop of the code runs over a finite list (the
    tokens of a header, the chain, the items of a decoder stream, the bytes
    of a chunk), so the models are structural Fixpoints.  A decoder stream
    is a finite list: the model covers bodies that end; a transport that
    never ends its body is outside it.  Bytes are Rocq's [byte]; lengths
    are unbounded [nat] (the code never does arithmetic on them).

    ** Not modelled

    The compression algorithms (an interface with a contract instead), the
    transport and the rest of the pipeline ([next]: the repository's
    [Next::run] and [HttpClient] are not under [src/], and the spec treats
    them as an external collaborator with no contract beyond handing a
    request and returning a result), and header-name case folding (names
    are stored lowercase, as [http] does).  The executor and cancellation
    are modelled from the spec.  Every line of [compression.rs] but its
    [use] declarations is mapped to a definition.

    ** Further work

    A contract for the codec libraries beyond round trips (how a decoder
    reports corrupt input) would let [decode_codec_error_panics] be stated
    of real codecs rather than of any stream with an error item. *)

From stdpp Require Import base list strings gmap relations.
From Stdlib Require Import Ascii.
From Stdlib Require Import Init.Byte.

(** ** Scope and hint database of the development *)

Declare Scope surf_scope.
Delimit Scope surf_scope with surf.
Create HintDb surf.
Create Rewrite HintDb surf_rw.

(** Bytes of a body are Rocq's [byte]; stdpp does not ship its decision
    instance. *)
(** stdpp declares string append [simpl never]; the string functions of
    the model compute on literals, so let [simpl] unfold it again. *)
#[global] Arguments String.append : simpl nomatch.

#[global] Instance byte_eq_decision : EqDecision Byte.byte := Byte.byte_eq_dec.

(** ** Rust's [Result<T, E>] *)

Inductive result (A E : Type) : Type :=
| Ok (a : A)
| Err (e : E).
Arguments Ok {A E} a.
Arguments Err {A E} e.

(** [Result::is_ok]. *)
Definition is_ok {A E} (r : result A E) : bool :=
  match r with Ok _ => true | Err _ => false end.

(** [Iterator::collect::<Result<Vec<A>, E>>()]: the standard library's
    [FromIterator] instance for [Result] stops at the first [Err] and
    returns it; otherwise it returns the vector of all [Ok] payloads. *)
Fixpoint collect_results {A E} (rs : list (result A E)) : result (list A) E :=
  match rs with
  | [] => Ok []
  | Ok a :: rs' =>
      match collect_results rs' with
      | Ok l => Ok (a :: l)
      | Err e => Err e
      end
  | Err e :: _ => Err e
  end.

(** ** Panics as values

    A Rust [unwrap] on an [Err] or a [None] aborts the task.  The model
    keeps that outcome as a value: a computation ends [Done] with its
    result or [Panic] with the message the standard library prints. *)

Inductive outcome (A : Type) : Type :=
| Done (a : A)
| Panic (msg : string).
Arguments Done {A} a.
Arguments Panic {A} msg.

#[global] Instance outcome_ret : MRet outcome := λ A a, Done a.
#[global] Instance outcome_bind : MBind outcome :=
  λ A B f m, match m with Done a => f a | Panic s => Panic s end.
#[global] Arguments outcome_bind {_ _} _ !_ /.
#[global] Instance outcome_fmap : FMap outcome :=
  λ A B f m, match m with Done a => Done (f a) | Panic s => Panic s end.

Definition is_panic {A} (o : outcome A) : bool :=
  match o with Done _ => false | Panic _ => true end.

Definition result_unwrap_msg : string :=
  "called `Result::unwrap()` on an `Err` value".
Definition option_unwrap_msg : string :=
  "called `Option::unwrap()` on a `None` value".

(** [Result::unwrap]. *)
Definition unwrap {A E} (r : result A E) : outcome A :=
  match r with Ok a => Done a | Err _ => Panic result_unwrap_msg end.

(** [Option::unwrap]. *)
Definition unwrap_option {A} (o : option A) : outcome A :=
  match o with Some a => Done a | None => Panic option_unwrap_msg end.

Notation "'unwrap!' r" := (unwrap r) (at level 10) : surf_scope.

(** ** Generic lemmas shared by the components *)

Section generic.
Context {A B E : Type}.

Lemma bind_Done (a : A) (f : A → outcome B) : (Done a ≫= f) = f a.
Proof. done. Qed.

Lemma bind_Panic (s : string) (f : A → outcome B) : (Panic s ≫= f) = Panic s.
Proof. done. Qed.

Lemma bind_Done_inv (m : outcome A) (f : A → outcome B) (b : B) :
  (m ≫= f) = Done b → ∃ a, m = Done a ∧ f a = Done b.
Proof. destruct m; simpl; [eauto | discriminate]. Qed.

Lemma bind_Panic_inv (m : outcome A) (f : A → outcome B) (s : string) :
  (m ≫= f) = Panic s → m = Panic s ∨ ∃ a, m = Done a ∧ f a = Panic s.
Proof. destruct m; simpl; [eauto | injection 1 as ->; auto]. Qed.

Lemma unwrap_Done (r : result A E) (a : A) : unwrap r = Done a ↔ r = Ok a.
Proof. destruct r; simpl; split; congruence. Qed.

Lemma unwrap_option_Done (o : option A) (a : A) :
  unwrap_option o = Done a ↔ o = Some a.
Proof. destruct o; simpl; split; congruence. Qed.

(** [collect] succeeds exactly when every element is [Ok], and then
    returns the payloads in order. *)
Lemma collect_results_Ok (rs : list (result A E)) (l : list A) :
  collect_results rs = Ok l ↔ rs = Ok <$> l.
Proof.
  revert l. induction rs as [|[a|e] rs IH]; intros [|a' l]; simpl;
    try (destruct (collect_results rs) as [l'|e'] eqn:Hc);
    split; intros H; simplify_eq; try done.
  - f_equal. by apply IH.
  - assert (Ok l' = Ok l) by (by apply IH). by simplify_eq.
  - assert (Err e' = Ok l) by (by apply IH). discriminate.
Qed.

(** The error [collect] returns is the first [Err] of the sequence. *)
Lemma collect_results_Err (rs : list (result A E)) (e : E) :
  collect_results rs = Err e ↔
  ∃ pre post, rs = (Ok <$> pre) ++ Err e :: post.
Proof.
  induction rs as [|[a|e'] rs IH]; simpl.
  - split; [discriminate|]. by intros ([] & ? & ?).
  - split.
    + destruct (collect_results rs) eqn:Hc; intros; simplify_eq.
      destruct (proj1 IH eq_refl) as (pre & post & ->).
      by exists (a :: pre), post.
    + intros ([|a' pre] & post & H); simpl in H; [discriminate|].
      injection H as -> Hrs.
      rewrite (proj2 IH); [done | by exists pre, post].
  - split.
    + intros; simplify_eq. by exists [], rs.
    + by intros ([|a' pre] & post & H); simpl in H; simplify_eq.
Qed.

(** [collect] of a mapped sequence succeeds when the function succeeds on
    every element, pointwise. *)
Lemma collect_results_fmap_Ok {C} (f : C → result A E) (l : list C) (l' : list A) :
  collect_results (f <$> l) = Ok l' ↔ Forall2 (λ x y, f x = Ok y) l l'.
Proof.
  revert l'. induction l as [|x l IH]; intros [|y l'].
  - split; [constructor | done].
  - split; [discriminate | inversion 1].
  - rewrite fmap_cons. cbn [collect_results]. split; [|inversion 1].
    destruct (f x), (collect_results (f <$> l)); intros ?; simplify_eq.
  - rewrite fmap_cons, Forall2_cons, <- IH. cbn [collect_results].
    destruct (f x), (collect_results (f <$> l)); naive_solver.
Qed.

(** ... and fails with the error of the first element on which the
    function fails, every element before it succeeding. *)
Lemma collect_results_fmap_Err {C} (f : C → result A E) (l : list C) (e : E) :
  collect_results (f <$> l) = Err e ↔
  ∃ pre x post, l = pre ++ x :: post ∧ Forall (λ y, is_ok (f y) = true) pre ∧
                f x = Err e.
Proof.
  induction l as [|x l IH].
  - split; [discriminate|]. by intros ([] & ? & ? & ? & _).
  - rewrite fmap_cons. cbn [collect_results]. destruct (f x) as [a|e'] eqn:Hx.
    + transitivity (collect_results (f <$> l) = Err e).
      { destruct (collect_results (f <$> l)); naive_solver. }
      rewrite IH. split.
      * intros (pre & y & post & -> & Hpre & Hy). exists (x :: pre), y, post.
        split_and!; [done | constructor; [by rewrite Hx | done] | done].
      * intros ([|x' pre] & y & post & Heq & Hpre & Hy); simplify_eq/=; [congruence|].
        apply Forall_cons in Hpre as [_ Hpre]. eauto 10.
    + split.
      * intros [= ->]. by exists [], x, l.
      * intros ([|x' pre] & y & post & Heq & Hpre & Hy); simplify_eq/=; [congruence|].
        apply Forall_cons in Hpre as [Hx' _]. by rewrite Hx in Hx'.
Qed.

Lemma collect_results_map_Ok (l : list A) :
  collect_results (E:=E) (Ok <$> l) = Ok l.
Proof. by apply collect_results_Ok. Qed.
End generic.

(** Walking a list by index: the suffix after [k] starts with the
    [k]-th element, and an empty suffix means the prefix is everything. *)
Lemma drop_cons_inv {A} (l rest : list A) k x :
  drop k l = x :: rest → l !! k = Some x ∧ drop (S k) l = rest.
Proof.
  intros Hd. assert (l !! k = Some x) as Hk.
  { by rewrite <- (Nat.add_0_r k), <- lookup_drop, Hd. }
  split; [done|]. rewrite (drop_S _ _ _ Hk) in Hd. by injection Hd.
Qed.

Lemma drop_nil_take {A} (l : list A) k : drop k l = [] → take k l = l.
Proof.
  intros Hd. apply take_ge. pose proof (length_drop l k) as Hl.
  rewrite Hd in Hl. simpl in Hl. lia.
Qed.

(** A deterministic relation reaches at most one stuck state. *)
Lemma rtc_stuck_unique {S} (R : relation S) (stuck : S → Prop) :
  (∀ x y z, R x y → R x z → y = z) → (∀ x y, stuck x → ¬ R x y) →
  ∀ x y z, rtc R x y → rtc R x z → stuck y → stuck z → y = z.
Proof.
  intros Hdet Hstuck x y z Hy. revert z.
  induction Hy as [x|x x' y Hx Hy IH]; intros z Hz Sy Sz.
  - destruct Hz as [|x z' z Hxz]; [done|]. by destruct (Hstuck x z').
  - destruct Hz as [|x z' z Hxz Hz]; [by destruct (Hstuck x x')|].
    rewrite (Hdet _ _ _ Hx Hxz) in IH. by apply IH.
Qed.

#[export] Hint Rewrite @bind_Done @bind_Panic : surf_rw.
#[export] Hint Resolve collect_results_map_Ok : surf.

(** [outcome_inv] splits every hypothesis [m ≫= f = Done b] into the value
    [m] produced and the continuation's result. *)
Ltac outcome_inv :=
  repeat match goal with
  | H : (_ ≫= _) = Done _ |- _ =>
      let a := fresh "a" in let Ha := fresh "Ha" in
      apply bind_Done_inv in H as (a & Ha & H)
  | H : Done _ = Done _ |- _ => injection H as H
  end.
