(* ===== verification/Text.v ===== *)
(** * Rust string slices used by the header parser

    The middleware parses the [Content-Encoding] value with
    [hval.split(',').map(str::trim)] (src/src/middleware/compression.rs,
    lines 56-57).  This file models [str::split] on a [char] pattern,
    [str::trim] and, as the inverse of [split], [[&str]::join], over
    Rocq's [string] (a list of 8-bit [ascii]).  By the time the parser runs,
    [HeaderValue::to_str] has admitted only visible ASCII and tabs
    ([Http.v]), so a byte of the model is a [char] of the Rust code. *)

From stdpp Require Import base list strings.
From Stdlib Require Import Ascii.
From S2P Require Import Prelude.

Module Str.

(** [char::is_whitespace] on the ASCII range: [' '] and ['\t'..='\r']
    (Unicode's [White_Space] adds only code points above [0x7f], which a
    string accepted by [to_str] never holds). *)
Definition is_whitespace (c : ascii) : bool :=
  let n := nat_of_ascii c in (n =? 32) || ((9 <=? n) && (n <=? 13)).

(** Every character satisfies [P]. *)
Fixpoint forallb (P : ascii → bool) (s : string) : bool :=
  match s with
  | EmptyString => true
  | String a s' => P a && forallb P s'
  end.

Definition all_whitespace : string → bool := forallb is_whitespace.

(** The string does not contain the character [c]. *)
Definition excludes (c : ascii) : string → bool :=
  forallb (λ a, negb (Ascii.eqb a c)).

(** [str::split(c)]: the iterator keeps the start of the current piece and
    yields the slice up to each occurrence of [c]; at the end it yields the
    rest.  [cur] is that current piece, extended one character at a time. *)
Fixpoint split_go (c : ascii) (cur s : string) : list string :=
  match s with
  | EmptyString => [cur]
  | String a s' =>
      if Ascii.eqb a c then cur :: split_go c EmptyString s'
      else split_go c (cur +:+ String a EmptyString) s'
  end.

Definition split (c : ascii) (s : string) : list string :=
  split_go c EmptyString s.

(** [[&str]::join(c)]: the pieces with [c] between consecutive ones. *)
Fixpoint join (c : ascii) (ps : list string) : string :=
  match ps with
  | [] => EmptyString
  | [p] => p
  | p :: ps' => p +:+ String c (join c ps')
  end.

(** [str::trim_start_matches(char::is_whitespace)]. *)
Fixpoint trim_start (s : string) : string :=
  match s with
  | EmptyString => EmptyString
  | String a s' => if is_whitespace a then trim_start s' else s
  end.

(** [str::trim_end_matches(char::is_whitespace)]. *)
Fixpoint trim_end (s : string) : string :=
  match s with
  | EmptyString => EmptyString
  | String a s' =>
      match trim_end s' with
      | EmptyString => if is_whitespace a then EmptyString else String a EmptyString
      | r => String a r
      end
  end.

(** [str::trim]: both ends, as [trim_matches] does. *)
Definition trim (s : string) : string := trim_end (trim_start s).

(** The string does not start with whitespace. *)
Definition starts_non_ws (t : string) : bool :=
  match t with EmptyString => true | String a _ => negb (is_whitespace a) end.

(** ** Lemmas on [string] append *)

Lemma app_nil_r (s : string) : s +:+ EmptyString = s.
Proof. induction s as [|a s IH]; [done|]. simpl. by rewrite IH. Qed.

Lemma app_assoc (s1 s2 s3 : string) : s1 +:+ (s2 +:+ s3) = (s1 +:+ s2) +:+ s3.
Proof. induction s1 as [|a s1 IH]; [done|]. simpl. by rewrite IH. Qed.

Lemma forallb_app P (s1 s2 : string) :
  forallb P (s1 +:+ s2) = forallb P s1 && forallb P s2.
Proof. induction s1; simpl; [done|]. rewrite IHs1. apply andb_assoc. Qed.

#[export] Hint Rewrite app_nil_r forallb_app : surf_rw.

Lemma join_cons c p ps : ps ≠ [] → join c (p :: ps) = p +:+ String c (join c ps).
Proof. by destruct ps. Qed.

Lemma split_go_app c cur p s :
  excludes c p = true → split_go c cur (p +:+ s) = split_go c (cur +:+ p) s.
Proof.
  revert cur. induction p as [|a p IH]; intros cur Hp; simpl.
  - by rewrite app_nil_r.
  - simpl in Hp. apply andb_prop in Hp as [Ha Hp].
    destruct (Ascii.eqb a c); [done|]. rewrite IH by done. by rewrite <- app_assoc.
Qed.

Lemma split_go_join c cur p ps :
  Forall (λ q, excludes c q = true) (p :: ps) →
  split_go c cur (join c (p :: ps)) = (cur +:+ p) :: ps.
Proof.
  revert cur p. induction ps as [|q ps IH]; intros cur p Hall;
    apply Forall_cons in Hall as [Hp Hall].
  - simpl. rewrite <- (app_nil_r p) at 1. rewrite split_go_app by done. done.
  - rewrite join_cons by done. rewrite split_go_app by done. cbn [split_go].
    rewrite Ascii.eqb_refl, IH by done. done.
Qed.

(** ** [trim] *)

Lemma trim_start_app_ws l t :
  all_whitespace l = true → starts_non_ws t = true → trim_start (l +:+ t) = t.
Proof.
  induction l as [|a l IH]; simpl; intros Hl Ht.
  - destruct t as [|b t]; simpl in *; [done|]. by destruct (is_whitespace b).
  - apply andb_prop in Hl as [-> Hl]. by apply IH.
Qed.

Lemma trim_start_ws s : all_whitespace s = true → trim_start s = EmptyString.
Proof. intros Hs. rewrite <- (app_nil_r s). by apply trim_start_app_ws. Qed.

Lemma forallb_join P c ps :
  P c = true → Forall (λ p, forallb P p = true) ps → forallb P (join c ps) = true.
Proof.
  intros Hc Hps. induction Hps as [|p ps Hp Hps IH]; [done|].
  destruct ps as [|q ps]; [done|]. rewrite join_cons by done.
  rewrite forallb_app. cbn [forallb]. by rewrite Hp, Hc, IH.
Qed.

(** [split] inverts [join] on a non-empty list of pieces that do not
    contain the separator. *)
Lemma split_join_pieces c ps :
  ps ≠ [] → Forall (λ p, excludes c p = true) ps → split c (join c ps) = ps.
Proof.
  destruct ps as [|p ps]; [done|]. intros _ Hall. unfold split.
  by rewrite split_go_join.
Qed.

End Str.
