(* ===== verification/Http.v ===== *)
(** * The HTTP data the middleware touches

    The middleware reads and writes three things of the [http] crate and of
    surf's [Body]: a [HeaderMap] (lookup by name, [insert] which replaces
    every value of the name, [remove] which drops them and returns the
    first), [HeaderValue::to_str], and the body stream, which it takes out
    with [std::mem::replace(req.body_mut(), Body::empty())] and puts back
    with [Body::from(Vec<u8>)].  These are library types the source only
    calls; they are modelled from their documented behaviour and the spec
    (sections 3 and 6).

    - [HeaderMap] is a [gmap] from lowercase names to the list of values
      in insertion order.
    - [HeaderValue::from_static] panics on a byte that is not visible
      ASCII; it is an [outcome].
    - A body is a finite stream of chunks, each [Ok bytes] or an I/O
      error, as the [Stream<Item = io::Result<Bytes>>] the decoders read. *)

From stdpp Require Import base list strings gmap.
From Stdlib Require Import Ascii.
From S2P Require Import Prelude Text.

Module Http.

(** ** Header names and values *)

(** [http::header::CONTENT_ENCODING] and [ACCEPT_ENCODING]: [HeaderName]s
    are stored lowercase. *)
Definition CONTENT_ENCODING : string := "content-encoding".
Definition ACCEPT_ENCODING : string := "accept-encoding".

(** A [HeaderValue] is its bytes; [ToStrError] is [to_str]'s error. *)
Abbreviation HeaderValue := string (only parsing).
Inductive ToStrError := ToStrError_.

(** [http::header::value::is_visible_ascii]:
    [b >= 32 && b < 127 || b == b'\t']. *)
Definition is_visible_ascii (b : ascii) : bool :=
  let n := nat_of_ascii b in ((32 <=? n) && (n <? 127)) || (n =? 9).

(** [HeaderValue::to_str]: the bytes as a [&str] when every byte is
    visible ASCII or a tab. *)
Definition to_str (v : HeaderValue) : result string ToStrError :=
  if Str.forallb is_visible_ascii v then Ok v else Err ToStrError_.

(** [HeaderValue::from_static]: every byte must be visible ASCII, else
    [panic!("invalid header value")]. *)
Definition from_static (s : string) : outcome HeaderValue :=
  if Str.forallb is_visible_ascii s then Done s else Panic "invalid header value".

(** ** Header maps *)

Abbreviation HeaderMap := (gmap string (list string)).

(** [HeaderMap::get]: the first value of the name. *)
Definition header_get (name : string) (m : HeaderMap) : option HeaderValue :=
  m !! name ≫= head.

(** [HeaderMap::insert]: replaces all values of the name by [v] and
    returns the previous first value. *)
Definition header_insert (name : string) (v : HeaderValue) (m : HeaderMap)
  : option HeaderValue * HeaderMap :=
  (header_get name m, <[name := [v]]> m).

(** [HeaderMap::remove]: drops all values of the name and returns the
    first of them. *)
Definition header_remove (name : string) (m : HeaderMap)
  : option HeaderValue * HeaderMap :=
  (header_get name m, delete name m).

(** ** Bodies, requests, responses *)

Inductive IoErrorKind := InvalidData | UnexpectedEof | ConnectionReset | OtherKind.
#[global] Instance IoErrorKind_eq_dec : EqDecision IoErrorKind.
Proof. solve_decision. Defined.

Abbreviation bytes := (list Byte.byte) (only parsing).

(** A body stream: the chunks it yields, in order, then end of stream. *)
Record Body := mkBody { body_chunks : list (result bytes IoErrorKind) }.

(** [Body::empty()]. *)
Definition Body_empty : Body := mkBody [].

(** [Body::from(Vec<u8>)]: one chunk with the whole buffer. *)
Definition Body_from (v : bytes) : Body := mkBody [Ok v].

(** The bytes a body yields when it yields no error. *)
Definition body_bytes (b : Body) : option bytes :=
  match collect_results (body_chunks b) with
  | Ok chunks => Some (concat chunks)
  | Err _ => None
  end.

Record Request := mkRequest {
  req_url : string;
  req_headers : HeaderMap;
  req_body : Body
}.

Record Response := mkResponse {
  res_status : N;
  res_headers : HeaderMap;
  res_body : Body
}.

(** [*req.headers_mut() = h], [*res.body_mut() = b]. *)
Definition set_req_headers (h : HeaderMap) (r : Request) : Request :=
  mkRequest (req_url r) h (req_body r).
Definition set_res_headers (h : HeaderMap) (r : Response) : Response :=
  mkResponse (res_status r) h (res_body r).
Definition set_res_body (b : Body) (r : Response) : Response :=
  mkResponse (res_status r) (res_headers r) b.

(** ** Lemmas *)

(** [to_str] returns the value's own bytes or fails. *)
Lemma to_str_Ok v s : to_str v = Ok s → s = v.
Proof. unfold to_str. by case_match; intros [= ->]. Qed.

Lemma header_get_insert_eq name v m : header_get name (header_insert name v m).2 = Some v.
Proof. unfold header_get, header_insert. simpl. by rewrite lookup_insert_eq. Qed.

Lemma header_get_insert_ne name name' v m :
  name ≠ name' → header_get name' (header_insert name v m).2 = header_get name' m.
Proof. intros. unfold header_get, header_insert. simpl. by rewrite lookup_insert_ne. Qed.

Lemma header_get_remove name name' m :
  header_get name' (header_remove name m).2 =
  if decide (name = name') then None else header_get name' m.
Proof.
  unfold header_get, header_remove. simpl. case_decide as Hn.
  - subst. by rewrite lookup_delete_eq.
  - by rewrite lookup_delete_ne.
Qed.

Lemma body_bytes_from v : body_bytes (Body_from v) = Some v.
Proof. unfold body_bytes. simpl. by rewrite app_nil_r. Qed.

#[export] Hint Rewrite header_get_insert_eq body_bytes_from : surf_rw.
End Http.
