(* ===== verification/Encoding.v ===== *)
(** * The encoding negotiator

    [Encoding] and [Compression::parse_encoding]
    (src/src/middleware/compression.rs, lines 37-46), the advertised
    capability string [SUPPORTED_ENCODINGS] (line 18), and the first half of
    [Compression::decode] (lines 49-64), which reads [Content-Encoding],
    splits it on commas, trims each token, reverses the order and parses
    every token, unwrapping the collected [Result]. *)

From stdpp Require Import base list strings gmap.
From Stdlib Require Import Ascii.
From S2P Require Import Prelude Text Http.

Import Http.

Module Enc.

(** [accept_encoding::Encoding]. *)
Inductive Encoding := Gzip | Deflate | Brotli | Zstd | Identity.

#[global] Instance Encoding_eq_dec : EqDecision Encoding.
Proof. solve_decision. Defined.

(** [Compression::parse_encoding]: an exact, case-sensitive match on the
    five tokens. *)
Definition parse_encoding (s : string) : result Encoding unit :=
  if String.eqb s "gzip" then Ok Gzip
  else if String.eqb s "deflate" then Ok Deflate
  else if String.eqb s "br" then Ok Brotli
  else if String.eqb s "zstd" then Ok Zstd
  else if String.eqb s "identity" then Ok Identity
  else Err tt.

(** [static SUPPORTED_ENCODINGS]. *)
Definition SUPPORTED_ENCODINGS : string := "gzip, br, deflate, zstd".

(** Lines 56-60 up to the [unwrap]:
    [hval.split(',').map(str::trim).rev().map(parse_encoding).collect()]. *)
Definition parse_encodings (hval : string) : result (list Encoding) unit :=
  collect_results (parse_encoding <$> reverse (Str.trim <$> Str.split "," hval)).

(** Lines 49-64: [None] is the early [return] (no header, or a value that
    is not visible ASCII); a token that does not parse panics in the
    [unwrap] of line 60. *)
Definition content_encodings (h : HeaderMap) : outcome (option (list Encoding)) :=
  match header_get CONTENT_ENCODING h with
  | None => Done None
  | Some hval =>
      match to_str hval with
      | Err _ => Done None
      | Ok s => encs ← unwrap (parse_encodings s); Done (Some encs)
      end
  end.

(** The token of each encoding on the wire (spec, section 6). *)
Definition encoding_token (e : Encoding) : string :=
  match e with
  | Gzip => "gzip"
  | Deflate => "deflate"
  | Brotli => "br"
  | Zstd => "zstd"
  | Identity => "identity"
  end.

(** A [Content-Encoding] value listing [es] in application order, tokens
    separated by [", "] as servers write it. *)
Definition render (es : list Encoding) : string :=
  match es with
  | [] => ""
  | e :: es' => Str.join "," (encoding_token e :: ((λ e, " " +:+ encoding_token e) <$> es'))
  end.

(** ** Lemmas *)

Lemma parse_encoding_Ok s e : parse_encoding s = Ok e ↔ s = encoding_token e.
Proof.
  unfold parse_encoding.
  repeat match goal with
         | |- context [String.eqb ?a ?b] => destruct (String.eqb_spec a b)
         end; subst; destruct e; simpl; split; intros; simplify_eq; done.
Qed.

Lemma parse_tokens_Ok (ts : list string) (es : list Encoding) :
  parse_encoding <$> ts = Ok <$> es ↔ ts = encoding_token <$> es.
Proof.
  revert es. induction ts as [|t ts IH]; intros [|e es]; simpl;
    split; intros H; simplify_eq; try done.
  - f_equal; [by apply parse_encoding_Ok | by apply IH].
  - rewrite (proj2 (parse_encoding_Ok _ e) eq_refl). f_equal. by apply IH.
Qed.

Lemma encoding_token_trimmed e :
  Str.trim (encoding_token e) = encoding_token e ∧
  Str.trim (" " +:+ encoding_token e) = encoding_token e.
Proof. by destruct e. Qed.

Lemma encoding_token_excludes_comma e :
  Str.excludes "," (encoding_token e) = true ∧
  Str.excludes "," (" " +:+ encoding_token e) = true.
Proof. by destruct e. Qed.

Lemma content_encodings_absent h :
  header_get CONTENT_ENCODING h = None → content_encodings h = Done None.
Proof. intros H. unfold content_encodings. by rewrite H. Qed.

(** *** Properties of the negotiator *)

(** The statement of [parse_encodings_spec] below, in the form the other proofs use. *)
Lemma parse_encodings_tokens s es :
  parse_encodings s = Ok es ↔
  Str.trim <$> Str.split "," s = encoding_token <$> reverse es.
Proof.
  unfold parse_encodings. rewrite collect_results_Ok, parse_tokens_Ok.
  rewrite fmap_reverse. split.
  - intros <-. by rewrite reverse_involutive.
  - intros ->. by rewrite reverse_involutive.
Qed.

(** C8. The parsed chain is the list of trimmed comma-separated tokens, read
    from the last to the first: decoding undoes the encoding listed last
    first. *)
Theorem parse_encodings_spec s es :
  parse_encodings s = Ok es ↔
  Str.trim <$> Str.split "," s = encoding_token <$> reverse es.
Proof. apply parse_encodings_tokens. Qed.

(** The statement of [parse_encodings_Err] below, in the form the other proofs use. *)
Lemma parse_encodings_bad_token s :
  parse_encodings s = Err tt ↔
  ∃ p, p ∈ Str.split "," s ∧ ∀ e, Str.trim p ≠ encoding_token e.
Proof.
  split.
  - unfold parse_encodings. intros (pre & post & Hl)%collect_results_Err.
    assert (Err tt ∈ parse_encoding <$> reverse (Str.trim <$> Str.split "," s))
      as (t & Ht & Hin)%list_elem_of_fmap by (rewrite Hl; set_solver).
    apply elem_of_reverse, list_elem_of_fmap in Hin as (p & -> & Hp).
    exists p. split; [done|]. intros e He%parse_encoding_Ok. congruence.
  - intros (p & Hp & Hbad). destruct (parse_encodings s) as [es|[]] eqn:Hs; [|done].
    apply parse_encodings_tokens in Hs.
    assert (Str.trim p ∈ encoding_token <$> reverse es) as (e & He & _)%list_elem_of_fmap.
    { rewrite <- Hs. by apply list_elem_of_fmap_2. }
    by destruct (Hbad e).
Qed.

(** C22. The chain is rejected exactly when some comma-separated piece, once
    trimmed, is not one of the five tokens (matching is case-sensitive). *)
Theorem parse_encodings_Err s :
  parse_encodings s = Err tt ↔
  ∃ p, p ∈ Str.split "," s ∧ ∀ e, Str.trim p ≠ encoding_token e.
Proof. apply parse_encodings_bad_token. Qed.

(** The statement of [parse_encodings_render] below, in the form the other proofs use. *)
Lemma parse_render es :
  es ≠ [] → parse_encodings (render es) = Ok (reverse es).
Proof.
  destruct es as [|e es]; [done|]. intros _. apply parse_encodings_tokens.
  rewrite reverse_involutive. unfold render. rewrite Str.split_join_pieces.
  - rewrite !fmap_cons, (proj1 (encoding_token_trimmed e)), <- list_fmap_compose.
    f_equal. apply list_fmap_ext. intros _ e' _. apply encoding_token_trimmed.
  - done.
  - constructor; [apply encoding_token_excludes_comma|].
    apply Forall_fmap, Forall_forall. intros e' _. apply encoding_token_excludes_comma.
Qed.

(** C23. Round trip: a header value listing a non-empty chain parses back to
    that chain in reverse. *)
Theorem parse_encodings_render es :
  es ≠ [] → parse_encodings (render es) = Ok (reverse es).
Proof. apply parse_render. Qed.

(** *** Witnesses *)

Lemma parse_encodings_render_witness :
  parse_encodings (render [Gzip; Brotli]) = Ok [Brotli; Gzip].
Proof. apply (parse_encodings_render [Gzip; Brotli]). discriminate. Defined.
End Enc.
