(* ===== verification/Codec.v ===== *)
(** * The codec libraries, as an interface

    The middleware wraps the body in [async_compression::stream]'s
    [GzipDecoder], [DeflateDecoder], [BrotliDecoder] or [ZstdDecoder]
    (src/src/middleware/compression.rs, lines 11, 71, 82, 93, 104) and
    polls the result.  The algorithms are libraries the source only calls,
    so they are an interface here:

    - [Decoders] gives, for each codec, the chunks its stream yields when
      polled to the end on a given body (a finite list: every body the
      transport delivers ends, and so does a decoder's output);
    - [DecodersCorrect] is the contract the driver relies on: for each
      codec an encoder such that decoding any chunking of an encoded
      plaintext yields that plaintext, without error.

    [tagged_decoders] is an implementation of the interface used by the
    witnesses: each format is a one-byte magic number followed by the
    payload, and its decoder is a genuine streaming state machine that
    checks the magic number across chunk boundaries and reports a missing
    or wrong one as an I/O error, as the real decoders do. *)

From stdpp Require Import base list strings gmap.
From S2P Require Import Prelude Text Http Encoding.

Import Http Enc.

Module Codec.

Abbreviation Stream := (list (result bytes IoErrorKind)) (only parsing).

(** The four decoder constructors, each applied to the body it takes. *)
Class Decoders := {
  gzip_decoder : Body → Stream;
  deflate_decoder : Body → Stream;
  brotli_decoder : Body → Stream;
  zstd_decoder : Body → Stream
}.

(** The decoder the spec pairs with each encoding (section 6);
    [Identity] has none. *)
Definition codec_decoder `{Decoders} (e : Encoding) : option (Body → Stream) :=
  match e with
  | Gzip => Some gzip_decoder
  | Deflate => Some deflate_decoder
  | Brotli => Some brotli_decoder
  | Zstd => Some zstd_decoder
  | Identity => None
  end.

Lemma codec_decoder_None `{Decoders} e : codec_decoder e = None ↔ e = Identity.
Proof. by destruct e. Qed.

(** A decoder inverts an encoder: on any body whose bytes are [enc p] it
    yields chunks that concatenate to [p], and no error. *)
Definition inverts (dec : Body → Stream) (enc : bytes → bytes) : Prop :=
  ∀ p body, body_bytes body = Some (enc p) →
    ∃ chunks, dec body = Ok <$> chunks ∧ concat chunks = p.

Class DecodersCorrect `{Decoders} := {
  gzip_encode : bytes → bytes;
  deflate_encode : bytes → bytes;
  brotli_encode : bytes → bytes;
  zstd_encode : bytes → bytes;
  gzip_inverts : inverts gzip_decoder gzip_encode;
  deflate_inverts : inverts deflate_decoder deflate_encode;
  brotli_inverts : inverts brotli_decoder brotli_encode;
  zstd_inverts : inverts zstd_decoder zstd_encode
}.

Section encode.
Context `{DecodersCorrect}.

(** What a server does to the body for one listed encoding. *)
Definition apply_encoding (e : Encoding) (p : bytes) : bytes :=
  match e with
  | Gzip => gzip_encode p
  | Deflate => deflate_encode p
  | Brotli => brotli_encode p
  | Zstd => zstd_encode p
  | Identity => p
  end.

(** A chain listed in application order: the first listed is applied
    first. *)
Definition encode_chain (es : list Encoding) (p : bytes) : bytes :=
  foldl (λ acc e, apply_encoding e acc) p es.

Lemma encode_chain_snoc es e p :
  encode_chain (es ++ [e]) p = apply_encoding e (encode_chain es p).
Proof. unfold encode_chain. by rewrite foldl_app. Qed.
End encode.

(** ** A streaming implementation of the interface *)

(** The decoder of a format with magic byte [magic]: before the magic byte
    is seen, empty chunks are skipped and a first byte other than [magic]
    is an [InvalidData] error; afterwards chunks pass through; an input
    error is passed on and ends the stream; an input that ends before the
    magic byte is an [UnexpectedEof] error. *)
Fixpoint tagged_go (magic : Byte.byte) (seen : bool) (s : Stream) : Stream :=
  match s with
  | [] => if seen then [] else [Err UnexpectedEof]
  | Err k :: _ => [Err k]
  | Ok c :: s' =>
      if seen then Ok c :: tagged_go magic true s'
      else match c with
           | [] => tagged_go magic false s'
           | b :: c' =>
               if decide (b = magic) then Ok c' :: tagged_go magic true s'
               else [Err InvalidData]
           end
  end.

Definition tagged_decoder (magic : Byte.byte) (body : Body) : Stream :=
  tagged_go magic false (body_chunks body).

Definition tagged_encode (magic : Byte.byte) (p : bytes) : bytes := magic :: p.

Definition tagged_decoders : Decoders := {|
  gzip_decoder := tagged_decoder Byte.x1f;
  deflate_decoder := tagged_decoder Byte.x78;
  brotli_decoder := tagged_decoder Byte.xce;
  zstd_decoder := tagged_decoder Byte.x28
|}.

Lemma tagged_go_seen magic (chunks : list bytes) :
  tagged_go magic true (Ok <$> chunks) = Ok <$> chunks.
Proof. induction chunks as [|c chunks IH]; simpl; [done|]. f_equal. exact IH. Qed.

Lemma tagged_go_inverts magic (chunks : list bytes) p :
  concat chunks = magic :: p →
  ∃ out, tagged_go magic false (Ok <$> chunks) = Ok <$> out ∧ concat out = p.
Proof.
  induction chunks as [|[|b c] chunks IH]; simpl; intros Hc; [done| |].
  - by apply IH.
  - injection Hc as -> Hc. rewrite decide_True by done.
    exists (c :: chunks). split; [|done]. simpl. f_equal. apply tagged_go_seen.
Qed.

Lemma tagged_inverts magic : inverts (tagged_decoder magic) (tagged_encode magic).
Proof.
  intros p [s] Hb. unfold body_bytes in Hb. simpl in Hb.
  destruct (collect_results s) as [chunks|] eqn:Hs; [|done].
  injection Hb as Hb. apply collect_results_Ok in Hs as ->.
  by apply tagged_go_inverts.
Qed.

Definition tagged_decoders_correct : @DecodersCorrect tagged_decoders :=
  @Build_DecodersCorrect tagged_decoders
    (tagged_encode Byte.x1f) (tagged_encode Byte.x78)
    (tagged_encode Byte.xce) (tagged_encode Byte.x28)
    (tagged_inverts Byte.x1f) (tagged_inverts Byte.x78)
    (tagged_inverts Byte.xce) (tagged_inverts Byte.x28).
End Codec.
