(* ===== verification/Drain.v ===== *)
(** * The chunk-draining loop of the decode driver

    Each non-identity branch of [Compression::decode]
    (src/src/middleware/compression.rs, lines 70-76, repeated at 81-87,
    92-98, 103-109) drains its decoder:

    [let mut decoded_content: Vec<u8> = Vec::new();]
    [while let Some(bytes) = decoded_stream.next().await {]
    [    for byte in bytes.unwrap() { decoded_content.push(byte); } }]

    [drain] is that loop as a function of the stream's chunks; [step] is
    the same loop as a small-step machine whose [Polling] states are the
    [.await] suspension points and whose [Pushing] states are the
    iterations of the inner [for]; the task machine of [Task.v] embeds it.
    The lemmas show that the machine reaches the final state [drain] names,
    and the theorem that the loop computes the concatenation of the chunks
    or panics at the first error. *)

From stdpp Require Import base list strings relations.
From S2P Require Import Prelude Http Codec.

Import Http Codec.

Module Drain.

(** [for byte in bytes { decoded_content.push(byte); }]. *)
Fixpoint push_all (acc bs : bytes) : bytes :=
  match bs with
  | [] => acc
  | b :: bs' => push_all (acc ++ [b]) bs'
  end.

(** The [while let] loop: poll, [unwrap] the chunk, push its bytes. *)
Fixpoint drain (s : Stream) (acc : bytes) : outcome bytes :=
  match s with
  | [] => Done acc
  | r :: s' => bs ← unwrap r; drain s' (push_all acc bs)
  end.

(** ** The loop as a state machine *)

Inductive state :=
| Polling (s : Stream) (acc : bytes)           (** at [.next().await] *)
| Pushing (c : bytes) (s : Stream) (acc : bytes) (** in the [for] loop *)
| Finished (acc : bytes)                       (** the stream said [None] *)
| Panicked.                                    (** [unwrap] on an [Err] *)

Inductive step : state → state → Prop :=
| step_end acc : step (Polling [] acc) (Finished acc)
| step_chunk c s acc : step (Polling (Ok c :: s) acc) (Pushing c s acc)
| step_error k s acc : step (Polling (Err k :: s) acc) Panicked
| step_push b c s acc : step (Pushing (b :: c) s acc) (Pushing c s (acc ++ [b]))
| step_next s acc : step (Pushing [] s acc) (Polling s acc).

(** The step as an executable function. *)
Definition step_fn (st : state) : option state :=
  match st with
  | Polling [] acc => Some (Finished acc)
  | Polling (Ok c :: s) acc => Some (Pushing c s acc)
  | Polling (Err _ :: _) _ => Some Panicked
  | Pushing (b :: c) s acc => Some (Pushing c s (acc ++ [b]))
  | Pushing [] s acc => Some (Polling s acc)
  | Finished _ | Panicked => None
  end.

Definition final (st : state) : Prop :=
  match st with Finished _ | Panicked => True | _ => False end.

(** ** Lemmas *)

Lemma step_fn_spec st st' : step st st' ↔ step_fn st = Some st'.
Proof.
  split.
  - by destruct 1.
  - destruct st as [[|[c|k] s] acc|[|b c] s acc| |]; simpl; intros; simplify_eq;
      constructor.
Qed.

Lemma step_det st st1 st2 : step st st1 → step st st2 → st1 = st2.
Proof. rewrite !step_fn_spec. congruence. Qed.

Lemma final_stuck st st' : final st → ¬ step st st'.
Proof. by destruct st; inversion 2. Qed.

Lemma push_all_app acc bs : push_all acc bs = acc ++ bs.
Proof.
  revert acc. induction bs as [|b bs IH]; intros acc; simpl.
  - by rewrite app_nil_r.
  - by rewrite IH, <- (assoc_L (++)).
Qed.

Lemma pushing_steps c s acc : rtc step (Pushing c s acc) (Polling s (acc ++ c)).
Proof.
  revert acc. induction c as [|b c IH]; intros acc.
  - rewrite app_nil_r. apply rtc_once. constructor.
  - eapply rtc_l; [constructor|].
    replace (acc ++ b :: c) with ((acc ++ [b]) ++ c) by by rewrite <- (assoc_L (++)).
    apply IH.
Qed.

(** The final state of the machine is the one [drain] names. *)
Definition final_of (o : outcome bytes) : state :=
  match o with Done out => Finished out | Panic _ => Panicked end.

Lemma drain_steps s acc : rtc step (Polling s acc) (final_of (drain s acc)).
Proof.
  revert acc. induction s as [|[c|k] s IH]; intros acc; simpl.
  - apply rtc_once. constructor.
  - eapply rtc_l; [constructor|]. eapply rtc_trans; [apply pushing_steps|].
    rewrite <- push_all_app. apply IH.
  - apply rtc_once. constructor.
Qed.

(** The only final state the machine reaches from a poll is the one
    [drain] names. *)
Lemma drain_final_unique s acc fin :
  rtc step (Polling s acc) fin → final fin → fin = final_of (drain s acc).
Proof.
  intros Hs Hfin. eapply (rtc_stuck_unique step final step_det final_stuck);
    [exact Hs | apply drain_steps | done |]. by destruct (drain s acc).
Qed.

#[export] Hint Resolve step_det final_stuck : surf.
#[export] Hint Rewrite push_all_app : surf_rw.

(** *** Properties of the loop *)

(** The statement of [drain_collect] below, in the form the other proofs use. *)
Lemma drain_concat s acc :
  drain s acc =
  match collect_results s with
  | Ok chunks => Done (acc ++ concat chunks)
  | Err _ => Panic result_unwrap_msg
  end.
Proof.
  revert acc. induction s as [|[c|k] s IH]; intros acc; simpl.
  - by rewrite app_nil_r.
  - rewrite IH, push_all_app. destruct (collect_results s); [|done].
    simpl. by rewrite (assoc_L (++)).
  - done.
Qed.

(** C19. The byte-by-byte loop computes the concatenation of the chunks when
    none is an error, and panics otherwise: it agrees with collecting the
    stream and concatenating. *)
Theorem drain_collect s acc :
  drain s acc =
  match collect_results s with
  | Ok chunks => Done (acc ++ concat chunks)
  | Err _ => Panic result_unwrap_msg
  end.
Proof. apply drain_concat. Qed.

End Drain.
