(* ===== verification/Decode.v ===== *)
(** * The streaming decode driver: [Compression::decode]

    src/src/middleware/compression.rs, lines 48-117.  [decode] reads the
    chain ([Enc.content_encodings], lines 49-64), then for each encoding
    of the chain, in the parsed (reversed) order, either does nothing
    ([Identity], line 112) or takes the body out, leaving [Body::empty()]
    in its place, wraps it in the codec's decoder, drains the decoder
    ([Drain.drain]) and stores [Body::from(decoded_content)] (lines 68-111,
    one [decode_with] per branch).  Finally it removes [Content-Encoding]
    and unwraps the removed value (line 116).  Panics of the Rust code are
    [Panic] outcomes.

    The section is parameterised by the codec interface [Decoders]; the
    correctness theorems additionally assume its contract
    [DecodersCorrect]. *)

From stdpp Require Import base list strings gmap.
From Stdlib Require Import Ascii.
From S2P Require Import Prelude Text Http Encoding Codec Drain.

Import Http Enc Codec.

Module Decode.

Section decode.
Context `{D : Decoders}.

(** One branch of lines 68-111, for the decoder constructor
    [new_decoder]. *)
Definition decode_with (new_decoder : Body → Stream) (res : Response)
  : outcome Response :=
  let body := res_body res in
  let res := set_res_body Body_empty res in
  let decoded_stream := new_decoder body in
  decoded_content ← Drain.drain decoded_stream [];
  Done (set_res_body (Body_from decoded_content) res).

(** The [match encoding] of lines 67-113. *)
Definition decode_encoding (res : Response) (encoding : Encoding)
  : outcome Response :=
  match encoding with
  | Gzip => decode_with gzip_decoder res
  | Deflate => decode_with deflate_decoder res
  | Brotli => decode_with brotli_decoder res
  | Zstd => decode_with zstd_decoder res
  | Identity => Done res
  end.

(** [for encoding in encodings { ... }], lines 66-114. *)
Fixpoint decode_chain (encodings : list Encoding) (res : Response)
  : outcome Response :=
  match encodings with
  | [] => Done res
  | e :: es => res' ← decode_encoding res e; decode_chain es res'
  end.

(** [Compression::decode], lines 48-117. *)
Definition decode (res : Response) : outcome Response :=
  encodings ← content_encodings (res_headers res);
  match encodings with
  | None => Done res
  | Some encs =>
      res' ← decode_chain encs res;
      let (removed, headers) := header_remove CONTENT_ENCODING (res_headers res') in
      _ ← unwrap_option removed;
      Done (set_res_headers headers res')
  end.

(** ** Lemmas *)

Lemma decode_with_collect new_decoder res :
  decode_with new_decoder res =
  match collect_results (new_decoder (res_body res)) with
  | Ok chunks => Done (set_res_body (Body_from (concat chunks)) res)
  | Err _ => Panic result_unwrap_msg
  end.
Proof.
  unfold decode_with. rewrite Drain.drain_concat.
  by destruct (collect_results _).
Qed.

Lemma decode_encoding_frame res e res' :
  decode_encoding res e = Done res' →
  res_headers res' = res_headers res ∧ res_status res' = res_status res.
Proof.
  destruct e; simpl; [..|by intros [= ->]];
    rewrite decode_with_collect; case_match; by intros [= <-].
Qed.

Lemma decode_encoding_panic_msg res e m :
  decode_encoding res e = Panic m → m = result_unwrap_msg.
Proof.
  destruct e; simpl; [..|done];
    rewrite decode_with_collect; case_match; by intros [= <-].
Qed.

Lemma decode_chain_frame encs res res' :
  decode_chain encs res = Done res' →
  res_headers res' = res_headers res ∧ res_status res' = res_status res.
Proof.
  revert res. induction encs as [|e encs IH]; intros res; simpl; [by intros [= ->]|].
  intros (r & Hr & Hc)%bind_Done_inv.
  apply decode_encoding_frame in Hr as [<- <-]. by apply IH.
Qed.

Lemma decode_chain_panic_msg encs res m :
  decode_chain encs res = Panic m → m = result_unwrap_msg.
Proof.
  revert res. induction encs as [|e encs IH]; intros res; simpl; [done|].
  intros [Hp|(r & _ & Hc)]%bind_Panic_inv; [|by eapply IH].
  by eapply decode_encoding_panic_msg.
Qed.

Lemma content_encodings_Some h encs :
  content_encodings h = Done (Some encs) →
  ∃ v, header_get CONTENT_ENCODING h = Some v ∧ to_str v = Ok v ∧
       parse_encodings v = Ok encs.
Proof.
  unfold content_encodings, to_str.
  destruct (header_get _ h) as [v|]; [|done].
  destruct (Str.forallb _ v) eqn:Hvis; [|done].
  destruct (parse_encodings v) eqn:Hp; simpl; [|done].
  intros [= ->]. exists v. by rewrite Hvis.
Qed.

Lemma content_encodings_panic_msg h m :
  content_encodings h = Panic m → m = result_unwrap_msg.
Proof.
  unfold content_encodings, to_str.
  destruct (header_get _ h); [|done]. destruct (Str.forallb _ _); [|done].
  destruct (parse_encodings _); simpl; congruence.
Qed.

(** The header removal of line 116 always finds the header, so [decode]
    is the chain followed by deleting [Content-Encoding]. *)
Lemma decode_unfold res :
  decode res =
  match content_encodings (res_headers res) with
  | Panic m => Panic m
  | Done None => Done res
  | Done (Some encs) =>
      res' ← decode_chain encs res;
      Done (set_res_headers (delete CONTENT_ENCODING (res_headers res)) res')
  end.
Proof.
  unfold decode. destruct (content_encodings _) as [[encs|]|m] eqn:Hce; simpl; [|done..].
  apply content_encodings_Some in Hce as (v & Hv & _).
  destruct (decode_chain encs res) as [res'|m] eqn:Hc; simpl; [|done].
  apply decode_chain_frame in Hc as [Hh _]. unfold header_remove.
  by rewrite Hh, Hv.
Qed.

Lemma decode_with_error new_decoder res k :
  Err k ∈ new_decoder (res_body res) →
  decode_with new_decoder res = Panic result_unwrap_msg.
Proof.
  intros Hk. rewrite decode_with_collect.
  destruct (collect_results _) as [chunks|] eqn:Hc; [|done].
  apply collect_results_Ok in Hc. rewrite Hc in Hk.
  by apply list_elem_of_fmap in Hk as (? & ? & _).
Qed.

(** The branch taken for a non-identity encoding drains that encoding's
    codec. *)
Lemma decode_encoding_codec res e dec :
  codec_decoder e = Some dec → decode_encoding res e = decode_with dec res.
Proof. by destruct e; intros [= <-]. Qed.

(** The loop over a concatenation runs the two parts in turn. *)
Lemma decode_chain_app l1 l2 res :
  decode_chain (l1 ++ l2) res = (decode_chain l1 res ≫= decode_chain l2).
Proof.
  revert res. induction l1 as [|e l1 IH]; intros res; simpl; [done|].
  destruct (decode_encoding res e); simpl; [apply IH|done].
Qed.

Lemma decode_chain_identity n res :
  decode_chain (replicate n Identity) res = Done res.
Proof. induction n as [|n IH]; [done|]. by simpl. Qed.

(** *** Properties of [decode] on every input *)

(** The statement of [decode_absent] below, in the form the other proofs use. *)
Lemma decode_no_header res :
  header_get CONTENT_ENCODING (res_headers res) = None → decode res = Done res.
Proof. intros H. by rewrite decode_unfold, content_encodings_absent. 
Qed.

(** C14. Without a [Content-Encoding] header the response is returned as it
    came (line 63). *)
Theorem decode_absent res :
  header_get CONTENT_ENCODING (res_headers res) = None → decode res = Done res.
Proof. apply decode_no_header. Qed.

(** C15. A header value that is not visible ASCII is left alone, and so is the
    body (line 53). *)
Theorem decode_not_text res v err :
  header_get CONTENT_ENCODING (res_headers res) = Some v → to_str v = Err err →
  decode res = Done res.
Proof. intros Hv Ht. rewrite decode_unfold. unfold content_encodings. by rewrite Hv, Ht. Qed.

(** The statement of [decode_unknown_token_panics] below, in the form the other proofs use. *)
Lemma decode_bad_piece_panics res v p :
  header_get CONTENT_ENCODING (res_headers res) = Some v → to_str v = Ok v →
  p ∈ Str.split "," v → (∀ e, Str.trim p ≠ encoding_token e) →
  decode res = Panic result_unwrap_msg.
Proof.
  intros Hv Ht Hp Hbad. rewrite decode_unfold. unfold content_encodings.
  rewrite Hv, Ht, (proj2 (parse_encodings_bad_token v)) by eauto. done.
Qed.

(** C5. A token other than the five known ones (after trimming, compared
    case-sensitively) makes the task panic in the [unwrap] of line 60,
    before the body is touched; the spec asks for a typed error. *)
Theorem decode_unknown_token_panics res v p :
  header_get CONTENT_ENCODING (res_headers res) = Some v → to_str v = Ok v →
  p ∈ Str.split "," v → (∀ e, Str.trim p ≠ encoding_token e) →
  decode res = Panic result_unwrap_msg.
Proof. apply decode_bad_piece_panics. Qed.

(** C9. An empty or blank element of the [Content-Encoding] list (a value
    that is empty, a trailing comma as in ["gzip,"], a doubled comma) trims to
    the empty token, which is no encoding: the task panics, where HTTP's
    list syntax lets a recipient ignore empty elements. *)
Theorem decode_empty_element_panics res v p :
  header_get CONTENT_ENCODING (res_headers res) = Some v → to_str v = Ok v →
  p ∈ Str.split "," v → Str.all_whitespace p = true →
  decode res = Panic result_unwrap_msg.
Proof.
  intros Hv Ht Hp Hws. apply (decode_bad_piece_panics res v p); [done..|].
  intros e. unfold Str.trim. rewrite Str.trim_start_ws by done. by destruct e.
Qed.

(** C7. The only panics are the [Result::unwrap]s of lines 60 and 73: the
    [Option::unwrap] of the header removal (line 116) never fires,
    because the loop never changes the headers. *)
Theorem decode_remove_never_panics res m :
  decode res = Panic m → m = result_unwrap_msg.
Proof.
  rewrite decode_unfold. destruct (content_encodings _) as [[encs|]|m'] eqn:Hce; simpl.
  - intros [Hp|(r & _ & [=])]%bind_Panic_inv. by eapply decode_chain_panic_msg.
  - done.
  - intros [= <-]. by eapply content_encodings_panic_msg.
Qed.

(** C6. A codec error anywhere in the stream of the first decoder of the
    chain aborts the task: the [unwrap] of line 73 panics and no
    response is returned, where the spec asks for a [DecodeFailed]
    error. *)
Theorem decode_codec_error_panics res v e es dec k :
  header_get CONTENT_ENCODING (res_headers res) = Some v →
  Str.forallb is_visible_ascii v = true →
  Str.trim <$> Str.split "," v = encoding_token <$> es ++ [e] →
  codec_decoder e = Some dec → Err k ∈ dec (res_body res) →
  decode res = Panic result_unwrap_msg.
Proof.
  intros Hv Hvis Htok Hdec Hk. rewrite decode_unfold. unfold content_encodings, to_str.
  rewrite Hv, Hvis.
  assert (parse_encodings v = Ok (e :: reverse es)) as ->.
  { apply parse_encodings_tokens. by rewrite reverse_cons, reverse_involutive. }
  simpl. rewrite (decode_encoding_codec _ _ _ Hdec), (decode_with_error _ _ _ Hk).
  done.
Qed.

(** C18. A successful [decode] keeps the status and every other header, and
    either returns the response unchanged (the early returns) or removes
    [Content-Encoding]. *)
Theorem decode_frame res res' :
  decode res = Done res' →
  res_status res' = res_status res ∧
  (∀ name, name ≠ CONTENT_ENCODING → res_headers res' !! name = res_headers res !! name) ∧
  (res' = res ∨ res_headers res' = delete CONTENT_ENCODING (res_headers res)).
Proof.
  rewrite decode_unfold. destruct (content_encodings _) as [[encs|]|m]; simpl.
  - intros (r & Hr & [= <-])%bind_Done_inv.
    apply decode_chain_frame in Hr as [_ Hs]. simpl. split_and!; [done| |by right].
    intros name Hn. by rewrite lookup_delete_ne.
  - intros [= <-]. split_and!; [done..|by left].
  - done.
Qed.

(** C17. Decoding is idempotent: a decoded response has nothing left to
    decode. *)
Theorem decode_idempotent res res' : decode res = Done res' → decode res' = Done res'.
Proof.
  intros Hd. rewrite decode_unfold in Hd.
  destruct (content_encodings _) as [[encs|]|m] eqn:Hce; simpl in Hd.
  - apply bind_Done_inv in Hd as (r & _ & [= <-]).
    apply decode_no_header. simpl. unfold header_get. by rewrite lookup_delete_eq.
  - injection Hd as <-. by rewrite decode_unfold, Hce.
  - done.
Qed.

(** *** Functional correctness, under the codec contract *)

Section correct.
Context {DC : @DecodersCorrect D}.

Lemma decode_with_inverts dec enc res p :
  inverts dec enc → body_bytes (res_body res) = Some (enc p) →
  decode_with dec res = Done (set_res_body (Body_from p) res).
Proof.
  intros Hinv Hb. destruct (Hinv p _ Hb) as (chunks & Hc & <-).
  by rewrite decode_with_collect, Hc, collect_results_map_Ok.
Qed.

Lemma decode_encoding_correct res e p :
  body_bytes (res_body res) = Some (apply_encoding e p) →
  ∃ res', decode_encoding res e = Done res' ∧ body_bytes (res_body res') = Some p ∧
          res_headers res' = res_headers res ∧ res_status res' = res_status res.
Proof.
  intros Hb. destruct e; simpl in *; [..|by exists res].
  all: eexists; split;
    [eapply decode_with_inverts; [|exact Hb];
     first [exact gzip_inverts | exact deflate_inverts
           | exact brotli_inverts | exact zstd_inverts]
    | simpl; split_and!; [apply body_bytes_from|done|done]].
Qed.

(** Walking the reversed chain undoes the encodings from the last
    applied to the first. *)
Lemma decode_chain_correct es res p :
  body_bytes (res_body res) = Some (encode_chain es p) →
  ∃ res', decode_chain (reverse es) res = Done res' ∧
          body_bytes (res_body res') = Some p ∧
          res_headers res' = res_headers res ∧ res_status res' = res_status res.
Proof.
  revert res. induction es as [|e es IH] using rev_ind; intros res Hb.
  - by exists res.
  - rewrite encode_chain_snoc in Hb. rewrite reverse_snoc. simpl.
    destruct (decode_encoding_correct res e _ Hb) as (r & -> & Hr & Hh & Hs).
    simpl. destruct (IH r Hr) as (r' & -> & Hr' & Hh' & Hs').
    exists r'. split_and!; [done|done|congruence|congruence].
Qed.

(** The statement of [decode_correct] below, in the form the other proofs use. *)
Lemma decode_plaintext res v es p :
  header_get CONTENT_ENCODING (res_headers res) = Some v →
  Str.forallb is_visible_ascii v = true →
  Str.trim <$> Str.split "," v = encoding_token <$> es →
  body_bytes (res_body res) = Some (encode_chain es p) →
  ∃ res', decode res = Done res' ∧ body_bytes (res_body res') = Some p ∧
          res_headers res' = delete CONTENT_ENCODING (res_headers res) ∧
          res_status res' = res_status res.
Proof.
  intros Hv Hvis Htok Hb. rewrite decode_unfold. unfold content_encodings, to_str.
  rewrite Hv, Hvis.
  assert (parse_encodings v = Ok (reverse es)) as ->.
  { apply parse_encodings_tokens. by rewrite reverse_involutive. }
  simpl. destruct (decode_chain_correct es res p Hb) as (r & -> & Hr & _ & Hs).
  by exists (set_res_headers (delete CONTENT_ENCODING (res_headers res)) r).
Qed.

(** C1. Refinement of the spec's decode contract: when [Content-Encoding]
    lists the chain [es] in application order (any whitespace around
    the tokens) and the body is the plaintext [p] encoded by [es],
    [decode] returns [p] as the body, without [Content-Encoding], with
    everything else unchanged. *)
Theorem decode_correct res v es p :
  header_get CONTENT_ENCODING (res_headers res) = Some v →
  Str.forallb is_visible_ascii v = true →
  Str.trim <$> Str.split "," v = encoding_token <$> es →
  body_bytes (res_body res) = Some (encode_chain es p) →
  ∃ res', decode res = Done res' ∧ body_bytes (res_body res') = Some p ∧
          res_headers res' = delete CONTENT_ENCODING (res_headers res) ∧
          res_status res' = res_status res.
Proof. apply decode_plaintext. Qed.
End correct.

(** The statement of [decode_identity] below, in the form the other proofs use. *)
Lemma decode_identity_chain res v n :
  header_get CONTENT_ENCODING (res_headers res) = Some v →
  Str.forallb is_visible_ascii v = true →
  Str.trim <$> Str.split "," v = replicate n "identity" →
  decode res = Done (set_res_headers (delete CONTENT_ENCODING (res_headers res)) res).
Proof.
  intros Hv Hvis Htok. rewrite decode_unfold. unfold content_encodings, to_str.
  rewrite Hv, Hvis.
  assert (parse_encodings v = Ok (replicate n Identity)) as ->.
  { apply parse_encodings_tokens. by rewrite reverse_replicate, fmap_replicate. }
  simpl. by rewrite decode_chain_identity.
Qed.

(** C16. [identity] tokens only: the body is left as it is and the header is
    still removed. *)
Theorem decode_identity res v n :
  header_get CONTENT_ENCODING (res_headers res) = Some v →
  Str.forallb is_visible_ascii v = true →
  Str.trim <$> Str.split "," v = replicate n "identity" →
  decode res = Done (set_res_headers (delete CONTENT_ENCODING (res_headers res)) res).
Proof. apply decode_identity_chain. Qed.

(** C10. Only the first [Content-Encoding] field line is read ([HeaderMap::get],
    line 49) but all of them are removed (line 116): when the first line
    is [identity], later lines naming real codings are dropped and the body
    is returned still encoded, with no header left to say so. *)
Theorem decode_ignores_later_values res rest :
  res_headers res !! CONTENT_ENCODING = Some ("identity" :: rest) →
  decode res = Done (set_res_headers (delete CONTENT_ENCODING (res_headers res)) res).
Proof.
  intros H. apply (decode_identity_chain _ "identity" 1); [|done..].
  unfold header_get. by rewrite H.
Qed.
End decode.

(** ** Witnesses

    Concrete responses, decoded with the tagged codecs of [Codec.v]: a
    body [brotli(gzip("A"))] labelled ["gzip, br"], one labelled with an
    unknown token, one whose gzip magic byte is wrong, one without the
    header, one with a non-ASCII header value and one labelled
    ["identity, identity"]. *)

Definition response_with (ce : option string) (body : bytes) : Response :=
  mkResponse 200
    (match ce with Some v => <[CONTENT_ENCODING := [v]]> ∅ | None => ∅ end)
    (Body_from body).

Definition gzip_br_response : Response :=
  response_with (Some "gzip, br") [Byte.xce; Byte.x1f; Byte.x41].

Definition lz4_response : Response := response_with (Some "gzip, lz4") [Byte.x41].

Definition bad_gzip_response : Response := response_with (Some "gzip") [Byte.x00].

Definition plain_response : Response := response_with None [Byte.x41].

Definition non_ascii_value : string := String (Ascii.ascii_of_nat 200) "gzip".

Definition non_ascii_response : Response :=
  response_with (Some non_ascii_value) [Byte.x41].

Definition identity_response : Response :=
  response_with (Some "identity, identity") [Byte.x41].

Definition two_lines_response : Response :=
  mkResponse 200 (<[CONTENT_ENCODING := ["identity"; "gzip"]]> ∅)
    (Body_from [Byte.x1f; Byte.x41]).

Lemma decode_ignores_later_values_witness :
  decode (D:=tagged_decoders) two_lines_response =
  Done (set_res_headers ∅ two_lines_response).
Proof.
  apply (decode_ignores_later_values (D:=tagged_decoders) two_lines_response ["gzip"]).
  reflexivity.
Defined.

Lemma decode_correct_witness :
  ∃ res', decode (D:=tagged_decoders) gzip_br_response = Done res' ∧
          body_bytes (res_body res') = Some [Byte.x41] ∧
          res_headers res' = delete CONTENT_ENCODING (res_headers gzip_br_response) ∧
          res_status res' = res_status gzip_br_response.
Proof.
  apply (decode_correct (D:=tagged_decoders) (DC:=tagged_decoders_correct)
           gzip_br_response "gzip, br" [Gzip; Brotli]); vm_compute; reflexivity.
Defined.

Lemma decode_unknown_token_panics_witness :
  decode (D:=tagged_decoders) lz4_response = Panic result_unwrap_msg.
Proof.
  apply (decode_unknown_token_panics lz4_response "gzip, lz4" " lz4");
    [reflexivity | reflexivity | apply list_elem_of_In; simpl; tauto |].
  intros [] H; vm_compute in H; discriminate.
Defined.

Definition trailing_comma_response : Response :=
  response_with (Some "gzip,") [Byte.x1f; Byte.x41].

Lemma decode_empty_element_panics_witness :
  decode (D:=tagged_decoders) trailing_comma_response = Panic result_unwrap_msg.
Proof.
  apply (decode_empty_element_panics trailing_comma_response "gzip," EmptyString);
    [reflexivity | reflexivity | apply list_elem_of_In; simpl; tauto | reflexivity].
Defined.

Lemma decode_codec_error_panics_witness :
  decode (D:=tagged_decoders) bad_gzip_response = Panic result_unwrap_msg.
Proof.
  apply (decode_codec_error_panics (D:=tagged_decoders) bad_gzip_response "gzip"
           Gzip [] (tagged_decoder Byte.x1f) InvalidData);
    [reflexivity..|]. apply list_elem_of_In. simpl. tauto.
Defined.

Lemma decode_remove_never_panics_witness :
  ∃ m, decode (D:=tagged_decoders) lz4_response = Panic m ∧ m = result_unwrap_msg.
Proof.
  exists result_unwrap_msg. split; [reflexivity|].
  apply (decode_remove_never_panics (D:=tagged_decoders) lz4_response). reflexivity.
Defined.

Lemma decode_absent_witness :
  decode (D:=tagged_decoders) plain_response = Done plain_response.
Proof. apply decode_absent. reflexivity. Defined.

Lemma decode_not_text_witness :
  decode (D:=tagged_decoders) non_ascii_response = Done non_ascii_response.
Proof. apply (decode_not_text _ non_ascii_value ToStrError_); reflexivity. Defined.

Lemma decode_identity_witness :
  decode (D:=tagged_decoders) identity_response =
  Done (set_res_headers (delete CONTENT_ENCODING (res_headers identity_response))
          identity_response).
Proof. apply (decode_identity _ "identity, identity" 2); reflexivity. Defined.

Lemma decode_idempotent_witness :
  ∃ res', decode (D:=tagged_decoders) gzip_br_response = Done res' ∧
          decode (D:=tagged_decoders) res' = Done res'.
Proof.
  eexists. split; [reflexivity|].
  apply (decode_idempotent (D:=tagged_decoders) gzip_br_response). reflexivity.
Defined.

Lemma decode_frame_witness :
  ∃ res', decode (D:=tagged_decoders) gzip_br_response = Done res' ∧
    res_status res' = res_status gzip_br_response ∧
    (∀ name, name ≠ CONTENT_ENCODING →
       res_headers res' !! name = res_headers gzip_br_response !! name) ∧
    (res' = gzip_br_response ∨
     res_headers res' = delete CONTENT_ENCODING (res_headers gzip_br_response)).
Proof.
  eexists. split; [reflexivity|].
  apply (decode_frame (D:=tagged_decoders) gzip_br_response). reflexivity.
Defined.

End Decode.
