(* ===== verification/Middleware.v ===== *)
(** * The middleware: [Compression] and its [handle]

    src/src/middleware/compression.rs, lines 21-35 and 122-137.  [handle]
    inserts [Accept-Encoding: gzip, br, deflate, zstd] into the request
    (lines 131-132), runs the rest of the pipeline, propagating its error
    with [?] (line 133), decodes the response (line 134) and returns it.
    The rest of the pipeline, [next.run(req, client)], is a parameter: a
    function from the request it receives to its result. *)

From stdpp Require Import base list strings gmap.
From Stdlib Require Import Ascii.
From S2P Require Import Prelude Text Http Encoding Codec Decode.

Import Http Enc Codec Decode.

Module Middleware.

(** [pub struct Compression;] (lines 28-29). *)
Record Compression := mkCompression {}.

(** [Compression::new()]: [Self {}] (lines 33-35). *)
Definition Compression_new : Compression := mkCompression.

(** The free function [new()], which calls [Compression::new()]
    (lines 21-23). *)
Definition new : Compression := Compression_new.

(** Lines 131-132: [req.headers_mut().insert(ACCEPT_ENCODING,
    HeaderValue::from_static(SUPPORTED_ENCODINGS))]: the value is built
    first (and would panic on a byte that is not visible ASCII), then
    inserted; the previous value returned by [insert] is dropped. *)
Definition advertise (req : Request) : outcome Request :=
  v ← from_static SUPPORTED_ENCODINGS;
  Done (set_req_headers (header_insert ACCEPT_ENCODING v (req_headers req)).2 req).

Section handle.
Context `{D : Decoders} {Exception : Type}.

(** [Middleware::handle], lines 124-137. *)
Definition handle (self : Compression) (req : Request)
    (next : Request → result Response Exception)
  : outcome (result Response Exception) :=
  req ← advertise req;
  match next req with
  | Err e => Done (Err e)
  | Ok res => res ← decode res; Done (Ok res)
  end.

(** ** Lemmas *)

(** The capability string is visible ASCII, so [from_static] returns it. *)
Lemma advertise_Done req :
  advertise req =
  Done (set_req_headers (<[ACCEPT_ENCODING := [SUPPORTED_ENCODINGS]]> (req_headers req)) req).
Proof. reflexivity. Qed.

(** *** Properties of the middleware *)

(** C20. [advertise] never panics, and the request passed down the pipeline
    carries exactly one [Accept-Encoding] value, the capability string,
    whatever it carried before; nothing else of the request changes. *)
Theorem advertise_spec req :
  ∃ req', advertise req = Done req' ∧
  req_headers req' !! ACCEPT_ENCODING = Some [SUPPORTED_ENCODINGS] ∧
  (∀ name, name ≠ ACCEPT_ENCODING → req_headers req' !! name = req_headers req !! name) ∧
  req_url req' = req_url req ∧ req_body req' = req_body req.
Proof.
  rewrite advertise_Done. eexists. split; [done|]. simpl.
  split_and!; [by rewrite lookup_insert_eq| |done|done].
  intros name Hn. by rewrite lookup_insert_ne.
Qed.

(** C21. An error of the rest of the pipeline is returned as it is, and
    nothing is decoded (the [?] of line 133). *)
Theorem handle_error_passthrough self req next req' e :
  advertise req = Done req' → next req' = Err e → handle self req next = Done (Err e).
Proof. intros Ha Hn. unfold handle. by rewrite Ha, bind_Done, Hn. Qed.

Section correct.
Context {DC : @DecodersCorrect D}.

(** C2. End to end: whatever non-empty chain of encodings the server picks
    and labels in [Content-Encoding], the caller receives the plaintext
    body, without [Content-Encoding]. *)
Theorem handle_correct self req next req' res es p :
  advertise req = Done req' → next req' = Ok res → es ≠ [] →
  header_get CONTENT_ENCODING (res_headers res) = Some (render es) →
  body_bytes (res_body res) = Some (encode_chain es p) →
  ∃ res', handle self req next = Done (Ok res') ∧
          body_bytes (res_body res') = Some p ∧
          res_headers res' = delete CONTENT_ENCODING (res_headers res) ∧
          res_status res' = res_status res.
Proof.
  intros Ha Hn Hes Hv Hb. unfold handle. rewrite Ha, bind_Done, Hn.
  destruct (decode_plaintext res (render es) es p) as (res' & -> & Hres');
    [done| |  |done|].
  - destruct es as [|e es]; [done|]. apply Str.forallb_join; [done|].
    constructor; [by destruct e|]. apply Forall_fmap, Forall_forall.
    intros e' _. by destruct e'.
  - pose proof (proj1 (parse_encodings_tokens _ _) (parse_render es Hes)) as Hs.
    by rewrite reverse_involutive in Hs.
  - by exists res'.
Qed.
End correct.
End handle.
(** *** Witnesses *)

Definition example_request : Request :=
  mkRequest "http://example.com/" (<[ACCEPT_ENCODING := ["*"]]> ∅) Body_empty.

Lemma handle_correct_witness :
  ∃ res', handle (D:=tagged_decoders) new example_request
            (λ _, Ok (A:=Response) (E:=unit) gzip_br_response) = Done (Ok res') ∧
          body_bytes (res_body res') = Some [Byte.x41] ∧
          res_headers res' = delete CONTENT_ENCODING (res_headers gzip_br_response) ∧
          res_status res' = res_status gzip_br_response.
Proof.
  apply (handle_correct (D:=tagged_decoders) (DC:=tagged_decoders_correct) new
           example_request _
           (set_req_headers (<[ACCEPT_ENCODING := [SUPPORTED_ENCODINGS]]>
                               (req_headers example_request)) example_request)
           gzip_br_response [Gzip; Brotli] [Byte.x41]);
    [reflexivity | reflexivity | discriminate | vm_compute; reflexivity | vm_compute; reflexivity].
Defined.

Lemma handle_error_passthrough_witness :
  handle (D:=tagged_decoders) new example_request (λ _, Err (A:=Response) tt) = Done (Err tt).
Proof. eapply handle_error_passthrough; reflexivity. Defined.

End Middleware.
