(* ===== verification/Spec.v ===== *)
(** * The decode contract of the spec, with typed errors

    Spec sections 4.2, 7 and 9 ask that [decode] report an unparseable
    [Content-Encoding] as [InvalidEncodingChain { offending_token }] and a
    codec failure as [DecodeFailed { encoding, chain_position, cause }]
    instead of aborting the task.  [decode_spec] is that contract, written
    from the spec (it is not code of the repository): the same chain parse
    and decode order as the code, with errors as values.

    The theorems relate it to the code's [Decode.decode]: wherever the
    spec succeeds the code returns the same response; wherever the spec
    reports a codec error or a bad token the code panics; the only other
    divergence is a header value that is not visible ASCII, which the spec
    rejects and the code passes through.  A [DecodeFailed] error names the
    encoding at that position of the chain the code parsed, on the body
    the code's earlier decodings produced.  [handle_spec] is the
    middleware of spec sections 6 and 7 built on the contract, and
    [handle_spec_refinement] relates it to [Middleware.handle]. *)

From stdpp Require Import base list strings gmap.
From Stdlib Require Import Ascii.
From S2P Require Import Prelude Text Http Encoding Codec Drain Decode Middleware.

Import Http Enc Codec Decode Middleware.

Module DecodeSpec.

Inductive DecodeError :=
| InvalidEncodingChain (offending_token : string)
| DecodeFailed (encoding : Encoding) (chain_position : nat) (cause : IoErrorKind).

(** A token that is not one of the five is reported as it is. *)
Definition parse_token (t : string) : result Encoding DecodeError :=
  match parse_encoding t with
  | Ok e => Ok e
  | Err _ => Err (InvalidEncodingChain t)
  end.

(** The chain in decoding order; the first bad token in that order is the
    error. *)
Definition parse_chain (hval : string) : result (list Encoding) DecodeError :=
  collect_results (parse_token <$> reverse (Str.trim <$> Str.split "," hval)).

Section spec.
Context `{D : Decoders}.

(** Decoding from position [pos] of the chain. *)
Fixpoint decode_chain_from (pos : nat) (encs : list Encoding) (res : Response)
  : result Response DecodeError :=
  match encs with
  | [] => Ok res
  | e :: es =>
      match codec_decoder e with
      | None => decode_chain_from (S pos) es res
      | Some dec =>
          match collect_results (dec (res_body res)) with
          | Ok chunks =>
              decode_chain_from (S pos) es (set_res_body (Body_from (concat chunks)) res)
          | Err k => Err (DecodeFailed e pos k)
          end
      end
  end.

Definition decode_spec (res : Response) : result Response DecodeError :=
  match header_get CONTENT_ENCODING (res_headers res) with
  | None => Ok res
  | Some v =>
      match to_str v with
      | Err _ => Err (InvalidEncodingChain v)
      | Ok s =>
          match parse_chain s with
          | Err err => Err err
          | Ok encs =>
              match decode_chain_from 0 encs res with
              | Ok r => Ok (set_res_headers (delete CONTENT_ENCODING (res_headers r)) r)
              | Err err => Err err
              end
          end
      end
  end.

(** The middleware under the contract (spec sections 6 and 7): an error
    of the rest of the pipeline is returned; a bad [Content-Encoding]
    aborts only the decode step, the response passing through with its
    original body and the error beside it; a codec failure is a
    request-level error; otherwise the decoded response. *)
Definition handle_spec {Exception} (req : Request)
    (next : Request → result Response Exception)
  : result (Response * option DecodeError) (Exception + DecodeError) :=
  match next (set_req_headers (<[ACCEPT_ENCODING := [SUPPORTED_ENCODINGS]]>
                                 (req_headers req)) req) with
  | Err e => Err (inl e)
  | Ok res =>
      match decode_spec res with
      | Ok r => Ok (r, None)
      | Err (InvalidEncodingChain t) => Ok (res, Some (InvalidEncodingChain t))
      | Err err => Err (inr err)
      end
  end.

(** ** Lemmas *)

Lemma parse_token_Ok t e : parse_token t = Ok e ↔ parse_encoding t = Ok e.
Proof. unfold parse_token. destruct (parse_encoding t); naive_solver. Qed.

Lemma parse_chain_Ok s es : parse_chain s = Ok es ↔ parse_encodings s = Ok es.
Proof.
  unfold parse_chain, parse_encodings. rewrite !collect_results_fmap_Ok.
  split; intros H; (eapply Forall2_impl; [exact H|]); intros t e; apply parse_token_Ok.
Qed.

(** A chain error is the first trimmed piece, in decoding order, that is
    none of the five tokens. *)
Lemma parse_chain_Err s err :
  parse_chain s = Err err ↔
  ∃ pre t post, err = InvalidEncodingChain t ∧
    reverse (Str.trim <$> Str.split "," s) = pre ++ t :: post ∧
    Forall (λ u, is_ok (parse_encoding u) = true) pre ∧ parse_encoding t = Err tt.
Proof.
  unfold parse_chain. rewrite collect_results_fmap_Err. unfold parse_token.
  split.
  - intros (pre & t & post & Hl & Hpre & Ht). exists pre, t, post.
    destruct (parse_encoding t) as [|[]]; simplify_eq. split_and!; [done|done| |done].
    eapply Forall_impl; [exact Hpre|]. intros u; cbv beta. by destruct (parse_encoding u).
  - intros (pre & t & post & -> & Hl & Hpre & Ht). exists pre, t, post.
    rewrite Ht. split_and!; [done| |done].
    eapply Forall_impl; [exact Hpre|]. intros u; cbv beta. by destruct (parse_encoding u).
Qed.

Lemma parse_chain_Err_code s err :
  parse_chain s = Err err → parse_encodings s = Err tt.
Proof.
  intros Hs. destruct (parse_encodings s) as [es|[]] eqn:Hp; [|done].
  apply parse_chain_Ok in Hp. congruence.
Qed.

(** The chain walk of the spec and of the code agree, up to the error
    value: a codec error of the spec is a panic of the code. *)
Lemma decode_chain_from_agree pos encs res :
  match decode_chain_from pos encs res with
  | Ok r => decode_chain encs res = Done r
  | Err (DecodeFailed _ _ _) => decode_chain encs res = Panic result_unwrap_msg
  | Err (InvalidEncodingChain _) => False
  end.
Proof.
  revert pos res. induction encs as [|e encs IH]; intros pos res; simpl; [done|].
  destruct (codec_decoder e) as [dec|] eqn:Hd.
  - rewrite (decode_encoding_codec _ _ _ Hd), decode_with_collect.
    destruct (collect_results _); simpl; [apply IH|done].
  - apply codec_decoder_None in Hd as ->. apply IH.
Qed.

(** A codec error names the encoding at that position of the chain, the
    response the chain has produced up to it, and its stream's first
    error. *)
Lemma decode_chain_from_failed pos encs res e i k :
  decode_chain_from pos encs res = Err (DecodeFailed e i k) →
  pos ≤ i ∧ encs !! (i - pos) = Some e ∧
  ∃ r dec, decode_chain (take (i - pos) encs) res = Done r ∧
           codec_decoder e = Some dec ∧ collect_results (dec (res_body r)) = Err k.
Proof.
  revert pos res. induction encs as [|e' encs IH]; intros pos res; simpl; [done|].
  destruct (codec_decoder e') as [dec|] eqn:Hd.
  - destruct (collect_results (dec (res_body res))) as [chunks|k'] eqn:Hc.
    + intros (Hle & Hi & r & dec' & Hr & Hdec & Hk)%IH.
      replace (i - pos) with (S (i - S pos)) by lia. simpl.
      split_and!; [lia|done|]. exists r, dec'. split_and!; [|done..].
      by rewrite (decode_encoding_codec _ _ _ Hd), decode_with_collect, Hc.
    + intros [= -> -> ->]. rewrite Nat.sub_diag. split_and!; [lia|done|].
      by exists res, dec.
  - apply codec_decoder_None in Hd as ->.
    intros (Hle & Hi & r & dec' & Hr & Hdec & Hk)%IH.
    replace (i - pos) with (S (i - S pos)) by lia. simpl.
    split_and!; [lia|done|]. by exists r, dec'.
Qed.

(** ** The code against the contract *)

(** The statement of [decode_spec_refinement] below, in the form the other proofs use. *)
Lemma decode_spec_agree res :
  match decode_spec res with
  | Ok r => decode res = Done r
  | Err (DecodeFailed _ _ _) => decode res = Panic result_unwrap_msg
  | Err (InvalidEncodingChain t) =>
      decode res = Panic result_unwrap_msg ∨
      (decode res = Done res ∧ header_get CONTENT_ENCODING (res_headers res) = Some t ∧
       is_ok (to_str t) = false)
  end.
Proof.
  rewrite decode_unfold. unfold decode_spec, content_encodings.
  destruct (header_get _ _) as [v|] eqn:Hg; [|done].
  destruct (to_str v) as [s|] eqn:Hs; [|simpl; right; by rewrite Hs].
  destruct (parse_chain s) as [encs|err] eqn:Hp.
  - rewrite (proj1 (parse_chain_Ok _ _) Hp). simpl.
    pose proof (decode_chain_from_agree 0 encs res) as Hagree.
    destruct (decode_chain_from 0 encs res) as [r|[t|e i k]]; [|done|];
      rewrite Hagree; simpl; [|done].
    by destruct (decode_chain_frame _ _ _ Hagree) as [-> _].
  - rewrite (parse_chain_Err_code _ _ Hp). simpl.
    apply parse_chain_Err in Hp as (pre & t & post & -> & _). by left.
Qed.

(** C3. Refinement of the typed-error contract by the code: where the
    contract returns a response the code returns the same response; where
    it reports a codec failure the code panics in [unwrap]; where it
    reports a bad token the code panics, unless the token is a header value
    that is not visible ASCII, which the code passes through unchanged. *)
Theorem decode_spec_refinement res :
  match decode_spec res with
  | Ok r => decode res = Done r
  | Err (DecodeFailed _ _ _) => decode res = Panic result_unwrap_msg
  | Err (InvalidEncodingChain t) =>
      decode res = Panic result_unwrap_msg ∨
      (decode res = Done res ∧ header_get CONTENT_ENCODING (res_headers res) = Some t ∧
       is_ok (to_str t) = false)
  end.
Proof. apply decode_spec_agree. Qed.

(** C12. A codec failure names the encoding at that position of the
    decoding order, on the response that the encodings before it produced:
    that encoding's decoder, run on that body, yields the reported error
    as the first error of its stream. *)
Theorem decode_failed_position res e i k :
  decode_spec res = Err (DecodeFailed e i k) →
  ∃ v encs r dec,
    header_get CONTENT_ENCODING (res_headers res) = Some v ∧ parse_encodings v = Ok encs ∧
    encs !! i = Some e ∧ decode_chain (take i encs) res = Done r ∧
    codec_decoder e = Some dec ∧ collect_results (dec (res_body r)) = Err k.
Proof.
  unfold decode_spec. destruct (header_get _ _) as [v|]; [|done].
  destruct (to_str v) as [s|] eqn:Hs; [|done]. apply to_str_Ok in Hs as ->.
  destruct (parse_chain v) as [encs|err] eqn:Hp.
  - destruct (decode_chain_from 0 encs res) as [r|err] eqn:Hc; intros [= ->].
    apply decode_chain_from_failed in Hc as (_ & Hi & r & dec & Hr & Hdec & Hk).
    rewrite Nat.sub_0_r in Hi, Hr. apply parse_chain_Ok in Hp. naive_solver.
  - intros [= ->]. by apply parse_chain_Err in Hp as (? & ? & ? & ? & _).
Qed.

(** C13. The middleware against its contract: where the contract returns a
    decoded response [handle] returns it; where it returns the pipeline's
    error so does [handle]; where it reports a codec failure [handle]
    panics; and where it passes a response with a bad [Content-Encoding]
    through, [handle] panics, or, for a value that is not visible ASCII,
    passes the same response through without the error. *)
Theorem handle_spec_refinement {Exception} self req (next : Request → result Response Exception) :
  match handle_spec req next with
  | Ok (r, None) => handle self req next = Done (Ok r)
  | Ok (res, Some _) =>
      handle self req next = Panic result_unwrap_msg ∨ handle self req next = Done (Ok res)
  | Err (inl e) => handle self req next = Done (Err e)
  | Err (inr _) => handle self req next = Panic result_unwrap_msg
  end.
Proof.
  unfold handle_spec, handle. rewrite advertise_Done, bind_Done.
  destruct (next _) as [res|e]; [|done].
  pose proof (decode_spec_agree res) as Hr.
  destruct (decode_spec res) as [r|[t|e i k]].
  - by rewrite Hr.
  - destruct Hr as [Hr|(Hr & _)]; rewrite Hr; [by left|by right].
  - by rewrite Hr.
Qed.
End spec.

Lemma decode_failed_position_witness :
  decode_spec (D:=tagged_decoders) bad_gzip_response = Err (DecodeFailed Gzip 0 InvalidData) ∧
  ∃ v encs r dec,
    header_get CONTENT_ENCODING (res_headers bad_gzip_response) = Some v ∧
    parse_encodings v = Ok encs ∧ encs !! 0 = Some Gzip ∧
    decode_chain (D:=tagged_decoders) (take 0 encs) bad_gzip_response = Done r ∧
    codec_decoder (H:=tagged_decoders) Gzip = Some dec ∧
    collect_results (dec (res_body r)) = Err InvalidData.
Proof.
  assert (H : decode_spec (D:=tagged_decoders) bad_gzip_response =
              Err (DecodeFailed Gzip 0 InvalidData)) by (vm_compute; reflexivity).
  split; [exact H | exact (decode_failed_position _ _ _ _ H)].
Defined.

(** End to end on ["gzip, br"]: the contract and [handle] return the
    decoded response. *)
Lemma handle_spec_refinement_witness :
  handle (D:=tagged_decoders) Middleware.new example_request
    (λ _, Ok (A:=Response) (E:=unit) gzip_br_response) =
  Done (Ok (mkResponse 200 ∅ (Body_from [Byte.x41]))).
Proof.
  exact (handle_spec_refinement (D:=tagged_decoders) Middleware.new example_request
           (λ _, Ok (A:=Response) (E:=unit) gzip_br_response)).
Defined.
End DecodeSpec.
