(* ===== verification/Task.v ===== *)
(** * One decode task as a small-step machine

    [Compression::decode] (src/src/middleware/compression.rs, lines
    48-117) runs as one cooperative task: it reads the chain, then for each
    encoding either skips it ([Identity]) or moves the body out (leaving
    [Body::empty()] in the response, line 69), polls the decoder one chunk
    at a time (each [.await] a suspension point, lines 72-76), stores the
    result (line 77), and at the end removes the header (line 116).

    [tstep] is that task step by step; its [InDrain] states embed the
    [Drain.step] machine.  The theorem shows that every reachable state
    holds what the computation of [Decode.decode] has produced at that
    point: the response of the decoded prefix of the chain, with the
    [Body::empty()] placeholder while the next decoder is drained, and the
    original headers until the strip.  [Cancelled] and [suspended] describe
    the task dropped by its executor at a suspension point; [suspended]
    admits every poll of a decoder, a superset of the polls that really
    return [Pending], which is sound for what is proved of cancellation. *)

From stdpp Require Import base list strings gmap relations.
From S2P Require Import Prelude Text Http Encoding Codec Drain Decode.

Import Http Enc Codec Decode.

Module Task.

(** The control point of the task. *)
Inductive pc :=
| AtStart                                       (** entry of [decode] *)
| AtEncoding (encs : list Encoding)             (** head of the [for] loop *)
| InDrain (encs : list Encoding) (ds : Drain.state) (** draining one decoder *)
| AtStrip                                       (** line 116 *)
| Returned                                      (** [decode] returned *)
| Crashed (msg : string)                        (** the task panicked *)
| Cancelled.                                    (** dropped while suspended *)

Record task := mkTask { t_pc : pc; t_res : Response }.

Section task.
Context `{D : Decoders}.

Inductive tstep : task → task → Prop :=
| ts_no_chain res :
    content_encodings (res_headers res) = Done None →
    tstep (mkTask AtStart res) (mkTask Returned res)
| ts_bad_chain res m :
    content_encodings (res_headers res) = Panic m →
    tstep (mkTask AtStart res) (mkTask (Crashed m) res)
| ts_chain res encs :
    content_encodings (res_headers res) = Done (Some encs) →
    tstep (mkTask AtStart res) (mkTask (AtEncoding encs) res)
| ts_identity encs res :
    tstep (mkTask (AtEncoding (Identity :: encs)) res) (mkTask (AtEncoding encs) res)
| ts_take e encs dec res :
    codec_decoder e = Some dec →
    tstep (mkTask (AtEncoding (e :: encs)) res)
          (mkTask (InDrain encs (Drain.Polling (dec (res_body res)) []))
                  (set_res_body Body_empty res))
| ts_drain encs ds ds' res :
    Drain.step ds ds' →
    tstep (mkTask (InDrain encs ds) res) (mkTask (InDrain encs ds') res)
| ts_store encs out res :
    tstep (mkTask (InDrain encs (Drain.Finished out)) res)
          (mkTask (AtEncoding encs) (set_res_body (Body_from out) res))
| ts_drain_panic encs res :
    tstep (mkTask (InDrain encs Drain.Panicked) res)
          (mkTask (Crashed result_unwrap_msg) res)
| ts_loop_end res :
    tstep (mkTask (AtEncoding []) res) (mkTask AtStrip res)
| ts_strip res v h :
    header_remove CONTENT_ENCODING (res_headers res) = (Some v, h) →
    tstep (mkTask AtStrip res) (mkTask Returned (set_res_headers h res))
| ts_strip_panic res h :
    header_remove CONTENT_ENCODING (res_headers res) = (None, h) →
    tstep (mkTask AtStrip res) (mkTask (Crashed option_unwrap_msg) (set_res_headers h res)).

Definition task_final (t : task) : Prop :=
  match t_pc t with Returned | Crashed _ | Cancelled => True | _ => False end.

(** The points where the enclosing request task may be dropped by its
    executor (spec section 5): before [decode] has started, and at the
    [.await] on a decoder's next chunk (line 72).  The other states are
    passed through within one poll. *)
Definition suspended (t : task) : bool :=
  match t_pc t with AtStart | InDrain _ (Drain.Polling _ _) => true | _ => false end.

(** Dropping the future: the task stops where it is, with the response
    as it holds it; the accumulated buffer is dropped with it. *)
Definition cancel (t : task) : task := mkTask Cancelled (t_res t).

(** The step as an executable function. *)
Definition tstep_fn (t : task) : option task :=
  let res := t_res t in
  match t_pc t with
  | AtStart =>
      match content_encodings (res_headers res) with
      | Done None => Some (mkTask Returned res)
      | Done (Some encs) => Some (mkTask (AtEncoding encs) res)
      | Panic m => Some (mkTask (Crashed m) res)
      end
  | AtEncoding [] => Some (mkTask AtStrip res)
  | AtEncoding (e :: encs) =>
      match codec_decoder e with
      | None => Some (mkTask (AtEncoding encs) res)
      | Some dec =>
          Some (mkTask (InDrain encs (Drain.Polling (dec (res_body res)) []))
                       (set_res_body Body_empty res))
      end
  | InDrain encs (Drain.Finished out) =>
      Some (mkTask (AtEncoding encs) (set_res_body (Body_from out) res))
  | InDrain encs Drain.Panicked => Some (mkTask (Crashed result_unwrap_msg) res)
  | InDrain encs ds => (λ ds', mkTask (InDrain encs ds') res) <$> Drain.step_fn ds
  | AtStrip =>
      match header_remove CONTENT_ENCODING (res_headers res) with
      | (Some _, h) => Some (mkTask Returned (set_res_headers h res))
      | (None, h) => Some (mkTask (Crashed option_unwrap_msg) (set_res_headers h res))
      end
  | Returned | Crashed _ | Cancelled => None
  end.

(** ** Lemmas *)

#[local] Arguments Drain.step_fn : simpl never.

Lemma tstep_fn_spec t t' : tstep t t' ↔ tstep_fn t = Some t'.
Proof.
  split.
  - destruct 1; unfold tstep_fn; simpl;
      repeat match goal with H : _ = _ |- _ => rewrite H end; try done.
    all: try (match goal with H : Drain.step ?ds _ |- _ =>
      apply Drain.step_fn_spec in H; destruct ds; simplify_eq/=; by rewrite H end).
    all: unfold header_remove in *; simplify_eq/=;
      match goal with H : header_get _ _ = _ |- _ => by rewrite H end.
  - destruct t as [[| [|e encs] | encs ds | | | |] res]; unfold tstep_fn; simpl; try done.
    + destruct (content_encodings _) as [[encs|]|m] eqn:Hc; intros [= <-]; by constructor.
    + intros [= <-]. constructor.
    + destruct (codec_decoder e) as [dec|] eqn:Hd; intros [= <-].
      * by constructor.
      * apply codec_decoder_None in Hd as ->. constructor.
    + destruct ds as [s acc|c s acc|out|]; simpl.
      1-2: intros (ds' & Hs%Drain.step_fn_spec & ->)%fmap_Some; by constructor.
      all: intros [= <-]; constructor.
    + destruct (header_get CONTENT_ENCODING (res_headers res)) as [v|] eqn:Hg;
        intros [= <-]; econstructor; unfold header_remove; by rewrite Hg.
Qed.

Lemma task_final_stuck t t' : task_final t → ¬ tstep t t'.
Proof. destruct t as [[] ?]; simpl; try done; inversion 2. Qed.

(** Invariant of a task started on [res0]: each state holds what the
    big-step computation has produced at that point.  At the loop head the
    chain read from the header is split into a decoded prefix, whose
    [decode_chain] is the response held, and the rest; while the decoder of
    the next encoding is drained the response holds the [Body::empty()]
    placeholder over the prefix's response, and the drain machine has run
    from that decoder's stream on the prefix's body; at the strip the whole
    chain is decoded. *)
Definition task_inv (res0 : Response) (t : task) : Prop :=
  let r := t_res t in
  match t_pc t with
  | AtStart => r = res0
  | AtEncoding encs =>
      ∃ all k, content_encodings (res_headers res0) = Done (Some all) ∧
        drop k all = encs ∧ decode_chain (take k all) res0 = Done r
  | InDrain encs ds =>
      ∃ all k e dec r0, content_encodings (res_headers res0) = Done (Some all) ∧
        all !! k = Some e ∧ drop (S k) all = encs ∧ codec_decoder e = Some dec ∧
        decode_chain (take k all) res0 = Done r0 ∧ r = set_res_body Body_empty r0 ∧
        rtc Drain.step (Drain.Polling (dec (res_body r0)) []) ds
  | AtStrip =>
      ∃ all, content_encodings (res_headers res0) = Done (Some all) ∧
        decode_chain all res0 = Done r
  | Returned | Crashed _ | Cancelled => True
  end.

(** Every step keeps [task_inv]. *)
Lemma task_inv_step res0 t t' : tstep t t' → task_inv res0 t → task_inv res0 t'.
Proof.
  destruct 1 as [res Hc|res m Hc|res encs Hc|encs res|e encs dec res Hd
                |encs ds ds' res Hs|encs out res|encs res|res|res v h _|res h _];
    unfold task_inv; cbn [t_pc t_res]; try done.
  - intros ->. by exists encs, 0.
  - intros (all & k & Hc & (Hk & Hdrop)%drop_cons_inv & Hr).
    exists all, (S k). split_and!; [done..|].
    by rewrite (take_S_r _ _ _ Hk), decode_chain_app, Hr.
  - intros (all & k & Hc & (Hk & Hdrop)%drop_cons_inv & Hr).
    by exists all, k, e, dec, res.
  - intros (all & k & e & dec & r0 & ? & ? & ? & ? & ? & ? & Hrtc).
    exists all, k, e, dec, r0. split_and!; [done..|]. by eapply rtc_r.
  - intros (all & k & e & dec & r0 & Hc & Hk & Hdrop & Hdec & Hr0 & -> & Hrtc).
    exists all, (S k). split_and!; [done..|].
    rewrite (take_S_r _ _ _ Hk), decode_chain_app, Hr0. simpl.
    rewrite (decode_encoding_codec _ _ _ Hdec). unfold decode_with.
    pose proof (Drain.drain_final_unique _ _ _ Hrtc I) as Hf.
    destruct (Drain.drain _ _); simplify_eq/=. done.
  - intros (all & k & Hc & Hd & Hr). exists all. rewrite (drop_nil_take _ _ Hd) in Hr. by split.
Qed.

Lemma task_inv_rtc res0 t : rtc tstep (mkTask AtStart res0) t → task_inv res0 t.
Proof.
  revert t. apply (rtc_ind_r (task_inv res0)); [done|].
  intros t1 t2 _ Hs IH. by eapply task_inv_step.
Qed.

(** At a suspension point the task holds its original response, or the
    response of a decoded prefix of the chain with the placeholder body. *)
Lemma suspended_inv res0 t :
  task_inv res0 t → suspended t = true →
  t_res t = res0 ∨
  ∃ all k r0, content_encodings (res_headers res0) = Done (Some all) ∧ k < length all ∧
    decode_chain (take k all) res0 = Done r0 ∧ t_res t = set_res_body Body_empty r0.
Proof.
  destruct t as [[| |encs [s acc| | |]| | | |] r]; unfold task_inv, suspended;
    cbn [t_pc t_res]; try done.
  - intros -> _. by left.
  - intros (all & k & e & dec & r0 & Hc & Hk & _ & _ & Hr0 & -> & _) _. right.
    exists all, k, r0. split_and!; [done| |done|done]. by eapply lookup_lt_Some.
Qed.

(** No step of the task machine itself cancels it. *)
Lemma tstep_not_cancelled t t' : tstep t t' → t_pc t' ≠ Cancelled.
Proof. by destruct 1. Qed.

Lemma rtc_tstep_cancelled t t' :
  rtc tstep t t' → t_pc t' = Cancelled → t_pc t = Cancelled.
Proof.
  intros Hs Hc. destruct Hs as [|t t1 t' Ht Hs]; [done|].
  apply rtc_inv_r in Hs as [->|(t2 & _ & Ht2)].
  - by destruct (tstep_not_cancelled _ _ Ht).
  - by destruct (tstep_not_cancelled _ _ Ht2).
Qed.

(** *** Properties of the task machine *)

(** C11. Every state a task reaches satisfies [task_inv]. *)
Theorem task_inv_reachable res0 t :
  rtc tstep (mkTask AtStart res0) t → task_inv res0 t.
Proof.
  apply task_inv_rtc.
Qed.
End task.

(** *** Witnesses *)

(** The response for ["gzip, br"] while the brotli decoder is being
    drained: the body is the placeholder. *)
Lemma task_inv_reachable_witness :
  task_inv (D:=tagged_decoders) gzip_br_response
    (mkTask (InDrain [Gzip] (Drain.Polling [Ok [Byte.x1f; Byte.x41]] []))
            (set_res_body Body_empty gzip_br_response)).
Proof.
  apply (task_inv_reachable (D:=tagged_decoders)).
  eapply rtc_l; [apply tstep_fn_spec; reflexivity|].
  apply rtc_once, tstep_fn_spec. reflexivity.
Defined.
End Task.
