(* ===== verification/Pool.v ===== *)
(** * Concurrent requests on one executor

    Spec section 5: each response is decoded by its own cooperative task;
    tasks share nothing but the executor, which interleaves them at their
    suspension points.  The executor is not code of the repository; it is
    modelled from the spec as [sched_step], which lets any one task of a
    pool take one [Task.tstep], or drops a task at a suspension point (the
    request it serves was cancelled).

    The theorem is about cancellation: whatever the schedule, a task the
    executor dropped leaves its response with untouched status and headers,
    holding either its original body or the placeholder over a decoded
    prefix of the chain. *)

From stdpp Require Import base list strings gmap relations.
From S2P Require Import Prelude Http Encoding Codec Drain Decode Task.

Import Http Enc Codec Decode Task.

Module Pool.

Section pool.
Context `{D : Decoders}.

(** One scheduling step: task [i] runs one step, the others wait; or the
    executor drops task [i] while it is suspended (the request it serves
    is cancelled). *)
Inductive sched_step : list task → list task → Prop :=
| sched_run (p : list task) i t t' :
    p !! i = Some t → tstep t t' → sched_step p (<[i := t']> p)
| sched_cancel (p : list task) i t :
    p !! i = Some t → suspended t = true → sched_step p (<[i := cancel t]> p).

(** An executable scheduler: run the tasks named by [sched] in turn, one
    step each; a finished task named again is skipped. *)
Fixpoint run_schedule (sched : list nat) (p : list task) : list task :=
  match sched with
  | [] => p
  | i :: sched' =>
      match p !! i ≫= tstep_fn with
      | Some t' => run_schedule sched' (<[i := t']> p)
      | None => run_schedule sched' p
      end
  end.

(** Under any schedule each task only follows its own steps, possibly
    cut short by a cancellation at a suspension point. *)
Lemma sched_project p p' :
  rtc sched_step p p' →
  length p' = length p ∧
  ∀ i t, p !! i = Some t → ∃ t', p' !! i = Some t' ∧
    (rtc tstep t t' ∨ ∃ t1, rtc tstep t t1 ∧ suspended t1 = true ∧ t' = cancel t1).
Proof.
  revert p'. apply (rtc_ind_r (λ p', length p' = length p ∧ ∀ i t, p !! i = Some t →
    ∃ t', p' !! i = Some t' ∧
      (rtc tstep t t' ∨ ∃ t1, rtc tstep t t1 ∧ suspended t1 = true ∧ t' = cancel t1))).
  { split; [done|]. intros i t Hi. exists t. by split; [|left]. }
  intros p2 p3 _ Hs [Hlen IH].
  destruct Hs as [p2 j u u' Hj Hu|p2 j u Hj Hsus]; (split; [by rewrite length_insert, Hlen|]);
    intros i t Hi; destruct (IH i t Hi) as (t2 & Ht2 & Hrel);
    (destruct (decide (i = j)) as [<-|Hne];
     [|exists t2; split; [by rewrite list_lookup_insert_ne|done]]);
    rewrite Ht2 in Hj; injection Hj as <-.
  - exists u'. split; [by apply list_lookup_insert_eq, lookup_lt_Some with t2|].
    destruct Hrel as [Hr|(t1 & _ & _ & ->)]; [left; by eapply rtc_r|].
    by destruct (task_final_stuck (cancel t1) u' I Hu).
  - exists (cancel t2). split; [by apply list_lookup_insert_eq, lookup_lt_Some with t2|].
    destruct Hrel as [Hr|(t1 & _ & _ & ->)]; [right; by exists t2|done].
Qed.

Lemma run_schedule_sound sched p : rtc sched_step p (run_schedule sched p).
Proof.
  revert p. induction sched as [|i sched IH]; intros p; simpl; [done|].
  destruct (p !! i) as [t|] eqn:Hi; simpl; [|apply IH].
  destruct (tstep_fn t) as [t'|] eqn:Ht; [|apply IH].
  eapply rtc_l; [|apply IH]. econstructor; [done|]. by apply tstep_fn_spec.
Qed.

(** *** Properties of the executor *)

(** C4. Cancellation: a task that the executor dropped, under any
    schedule, holds either its original response (dropped before [decode]
    started) or, dropped at the [.await] of the decoder of the [k+1]-th
    encoding, the response the first [k] decodings produced with the
    [Body::empty()] placeholder as its body.  Its status and headers,
    [Content-Encoding] included, are those it started with: a cancelled
    decode never leaves a partial header mutation, only the placeholder
    body. *)
Theorem cancelled_leaves p p' i res0 r :
  rtc sched_step p p' →
  p !! i = Some (mkTask AtStart res0) → p' !! i = Some (mkTask Cancelled r) →
  r = res0 ∨
  ∃ all k r0, content_encodings (res_headers res0) = Done (Some all) ∧ k < length all ∧
    decode_chain (take k all) res0 = Done r0 ∧ r = set_res_body Body_empty r0 ∧
    res_headers r = res_headers res0 ∧ res_status r = res_status res0.
Proof.
  intros Hs Hi Hi'.
  destruct (proj2 (sched_project p p' Hs) i _ Hi) as (t' & Ht' & [Hrtc|(t1 & Hrtc & Hsus & ->)]);
    rewrite Hi' in Ht'; injection Ht' as ?; subst.
  - by apply rtc_tstep_cancelled in Hrtc.
  - destruct (suspended_inv res0 t1 (task_inv_rtc _ _ Hrtc) Hsus)
      as [?|(all & k & r0 & Hc & Hk & Hr0 & Hr)]; [by left|right].
    destruct (decode_chain_frame _ _ _ Hr0) as [Hh Hst].
    exists all, k, r0. rewrite Hr. by split_and!.
Qed.

End pool.

(** *** Witnesses

    Two responses decoded concurrently with the tagged codecs. *)

Definition two_tasks : list task :=
  mkTask AtStart <$> [gzip_br_response; plain_response].

(** The ["gzip, br"] task dropped while the brotli decoder is awaited:
    it holds the placeholder body, its header untouched. *)
Definition cancelled_mid_drain : list task :=
  <[0 := mkTask Cancelled (set_res_body Body_empty gzip_br_response)]>
    (run_schedule (D:=tagged_decoders) [0; 0] two_tasks).

Lemma cancelled_leaves_witness :
  set_res_body Body_empty gzip_br_response = gzip_br_response ∨
  ∃ all k r0, content_encodings (res_headers gzip_br_response) = Done (Some all) ∧
    k < length all ∧ decode_chain (D:=tagged_decoders) (take k all) gzip_br_response = Done r0 ∧
    set_res_body Body_empty gzip_br_response = set_res_body Body_empty r0 ∧
    res_headers (set_res_body Body_empty gzip_br_response) = res_headers gzip_br_response ∧
    res_status (set_res_body Body_empty gzip_br_response) = res_status gzip_br_response.
Proof.
  apply (cancelled_leaves (D:=tagged_decoders) two_tasks cancelled_mid_drain 0);
    [|reflexivity|reflexivity].
  eapply rtc_r; [apply run_schedule_sound|].
  apply (sched_cancel _ 0 (mkTask (InDrain [Gzip]
           (Drain.Polling (tagged_decoder Byte.xce (res_body gzip_br_response)) []))
           (set_res_body Body_empty gzip_br_response))); vm_compute; reflexivity.
Defined.

End Pool.
